(** * buggalo: extracting phylogenetic trees into Newick files

    A shallow embedding of [main.cpp] and the properties of its extraction
    pipeline: format validation, parsing with its three catch clauses, the
    empty-result check, per-tree name resolution and the file writer.

    The program is written in C++ against iostreams, Boost and the Nexus
    Class Library (NCL).  Its functions are embedded as computations over an
    explicit [world] (the files on disk and the two console streams); what
    the libraries and the operating system decide is collected in an
    [environment]. *)

From Stdlib Require Import ZArith Ascii String.
From stdpp Require Import base numbers option list strings pretty gmap.

Local Open Scope Z_scope.

(** ** Data *)

(** Modelled from the spec: [tree_info], whose declaration ([tree_info.h])
    is not among the sources.  It is the tree record of the specification: a
    name, empty when the input did not label the tree, and the Newick string
    without its semicolon, read through [get_name] and [get_newick]. *)
Record tree_info := mk_tree_info {
  get_name : string;
  get_newick : string
}.

(** Modelled from the spec: how a call of [tree_parser::parse] can end
    ([tree_parser.h] is not among the sources), sorted by the handler of
    [parse_input] that it reaches: it returns, or it throws an
    [NxsException], another [std::exception], or anything else.  [held] is
    what [get_trees] returns once the call is over; [what] is the text
    [e.what()] gives on the copy the handler catches by value. *)
Inductive parse_outcome :=
| Parsed (held : list tree_info)
| ThrowsNxs (nxs_what : string)
| ThrowsStd (what : string)
| ThrowsOther (held : list tree_info).

(** The command line after [po::store] and [po::notify]: [vm.count] of each
    option and its value. *)
Record variables_map := mk_vm {
  vm_help : bool;
  vm_input : option string;
  vm_format : option string;
  vm_prefix : option string
}.

(** What the program does not decide itself. *)
Record environment := mk_env {
  (** [MultiFormatReader::getFormatNames()] *)
  getFormatNames : list string;
  (** [tree_parser(format).parse(in)], from the format and the content of
      the input file ([None] when the [ifstream] could not be opened) *)
  tree_parser_parse : string → option string → parse_outcome;
  (** the rendering of the [options_description] *)
  desc : string;
  (** whether [ofstream::open] succeeds on a path *)
  can_open : string → bool;
  (** the room the disk has for a file ([None]: no limit); a write beyond
      it fails *)
  capacity : string → option nat;
  (** the file a path leads to, under one spelling for all the paths that
      lead to it ([./A.tre] and [A.tre], links) *)
  file_of : string → string;
  (** the file size limit of the process ([RLIMIT_FSIZE]; [None]: no
      limit); a write beyond it raises [SIGXFSZ], which kills the process *)
  fsize_limit : option nat
}.

(** The observable state of a run.  [files] is keyed by file, that is by
    the values of [file_of]. *)
Record world := mk_world {
  files : gmap string string;
  cout : string;
  cerr : string;
  (** paths an [ifstream] was opened on, latest first *)
  read_log : list string;
  (** paths with an open [ofstream] *)
  open_streams : list string
}.

(** The exceptions the program throws itself. *)
Inductive exn := no_trees.

(** [no_trees_exception::what] *)
Definition what (e : exn) : string :=
  match e with
  | no_trees => "the file was parsed successfully, but no trees were found"
  end.

(** ** Computations *)

(** The ways a C++ function can end.  [Fuel] is the model's own: the bound
    given to a loop was used up before the loop condition turned false.
    [Undefined] stands for a vector read outside its bounds, [Killed] for
    the process killed by [SIGXFSZ]. *)
Inductive result (A : Type) :=
| Ok (a : A) (w : world)
| Exit (status : Z) (w : world)
| Raise (e : exn) (w : world)
| Killed (w : world)
| Undefined
| Fuel.
Arguments Ok {A} a w.
Arguments Exit {A} status w.
Arguments Raise {A} e w.
Arguments Killed {A} w.
Arguments Undefined {A}.
Arguments Fuel {A}.

Definition M (A : Type) : Type := world → result A.

Definition ret {A} (a : A) : M A := fun w => Ok a w.

Definition bind {A B} (m : M A) (k : A → M B) : M B := fun w =>
  match m w with
  | Ok a w' => k a w'
  | Exit s w' => Exit s w'
  | Raise e w' => Raise e w'
  | Killed w' => Killed w'
  | Undefined => Undefined
  | Fuel => Fuel
  end.

Notation "'do' x <- m ; k" := (bind m (fun x => k))
  (at level 10, x name, m at level 100, k at level 200, only parsing).
Notation "'run' m ; k" := (bind m (fun _ => k))
  (at level 10, m at level 100, k at level 200, only parsing).

Definition exit {A} (status : Z) : M A := fun w => Exit status w.
Definition throw {A} (e : exn) : M A := fun w => Raise e w.

(** [std::endl] as the text it adds. *)
Definition endl : string := String (ascii_of_nat 10) EmptyString.
Definition tab : string := String (ascii_of_nat 9) EmptyString.

(** The world with more text on one of the console streams, and with one
    more input path opened. *)
Definition with_cout (w : world) (text : string) : world :=
  mk_world (files w) (cout w +:+ text) (cerr w) (read_log w) (open_streams w).

Definition with_cerr (w : world) (text : string) : world :=
  mk_world (files w) (cout w) (cerr w +:+ text) (read_log w) (open_streams w).

Definition with_read (w : world) (path : string) : world :=
  mk_world (files w) (cout w) (cerr w) (path :: read_log w) (open_streams w).

(** [cout << s] and [cerr << s] *)
Definition print_cout (s : string) : M unit := fun w => Ok tt (with_cout w s).
Definition print_cerr (s : string) : M unit := fun w => Ok tt (with_cerr w s).

(** *** Unsigned counters *)

(** The largest [unsigned], of 32 bits; sizes are [size_t] and wider. *)
Definition UINT_MAX : Z := 4294967295.

(** [i++] on an [unsigned]. *)
Definition incr (i : Z) : Z := (i + 1) mod (UINT_MAX + 1).

(** What a loop body asks for: go on, or return from the function. *)
Inductive flow (R : Type) :=
| Next
| Return (r : R).
Arguments Next {R}.
Arguments Return {R} r.

(** [for (unsigned i = ...; i < size; i++) body], from the current [i]. *)
Fixpoint for_unsigned {R} (fuel : nat) (size : Z) (body : Z → M (flow R))
    (i : Z) : M (flow R) :=
  match fuel with
  | O => fun _ => Fuel
  | S fuel' =>
      if i <? size then
        do f <- body i;
        match f with
        | Return r => ret (Return r)
        | Next => for_unsigned fuel' size body (incr i)
        end
      else ret Next
  end.

(** [v[i]] on a [vector]. *)
Definition at_index {A} (v : list A) (i : Z) : M A := fun w =>
  match v !! Z.to_nat i with
  | Some x => Ok x w
  | None => Undefined
  end.

(** [v.size()] *)
Definition vector_size {A} (v : list A) : Z := Z.of_nat (length v).

(** [boost::lexical_cast<string>(i)] on an [unsigned]: its decimal digits. *)
Definition lexical_cast (i : Z) : string := pretty i.

(** [s.c_str()] as a file name: the characters before the first NUL. *)
Fixpoint c_str (s : string) : string :=
  match s with
  | EmptyString => EmptyString
  | String a s' => if Ascii.eqb a zero then EmptyString else String a (c_str s')
  end.

(** ** Output streams *)

(** The first [n] characters of a string. *)
Fixpoint string_take (n : nat) (s : string) : string :=
  match n, s with
  | S n', String a s' => String a (string_take n' s')
  | _, _ => EmptyString
  end.

(** An [ofstream]: the path it is open on, and whether one of its error
    bits is set. *)
Record ofstream := mk_ofstream {
  os_path : option string;
  os_fail : bool
}.

(** [ofstream out;] *)
Definition ofstream_new : ofstream := mk_ofstream None false.

(** A list of paths without the first occurrence of [p]. *)
Fixpoint remove_one (p : string) (l : list string) : list string :=
  match l with
  | [] => []
  | q :: l' => if String.eqb p q then l' else q :: remove_one p l'
  end.

(** Whether the disk has room for [data] in a file, whether [data] is
    within the file size limit of the process, whether it can be written
    in full, and what the disk keeps of it. *)
Definition has_room (E : environment) (file data : string) : bool :=
  match capacity E file with
  | Some n => (String.length data <=? n)%nat
  | None => true
  end.

Definition within_limit (E : environment) (data : string) : bool :=
  match fsize_limit E with
  | Some n => (String.length data <=? n)%nat
  | None => true
  end.

Definition fits (E : environment) (file data : string) : bool :=
  has_room E file data && within_limit E data.

Definition stored (E : environment) (file data : string) : string :=
  match capacity E file with
  | Some n => string_take n data
  | None => data
  end.

(** What is in the file when the process is killed for the size limit. *)
Definition stored_at_limit (E : environment) (file data : string) : string :=
  match fsize_limit E with
  | Some n => string_take n (stored E file data)
  | None => stored E file data
  end.

Section Program.
Context (E : environment).

(** [out.open(path)]: the default mode of an [ofstream] creates the file
    the path leads to or cuts it to length zero.  [open] fails, and sets
    failbit, on a stream that is open already and on a path that cannot be
    opened.  The stream keeps the file, not the spelling of the path. *)
Definition open (path : string) (out : ofstream) : M ofstream := fun w =>
  match os_path out with
  | Some _ => Ok (mk_ofstream (os_path out) true) w
  | None =>
      if can_open E path then
        let file := file_of E path in
        Ok (mk_ofstream (Some file) (os_fail out))
           (mk_world (<[file := EmptyString]> (files w)) (cout w) (cerr w)
                     (read_log w) (file :: open_streams w))
      else Ok (mk_ofstream None true) w
  end.

(** [out << s]: nothing happens on a stream that is not good.  Otherwise
    the characters go to the file.  When they would take it beyond the
    file size limit of the process, the process is killed by [SIGXFSZ]
    with the file filled up to the limit; when the disk has no room for all
    of them, the file takes what there is room for and badbit is set.  (The
    stream's buffer is not modelled: nobody reads the file before [close],
    and the flush of [close] meets the same limits.) *)
Definition put (s : string) (out : ofstream) : M ofstream := fun w =>
  match os_path out, os_fail out with
  | Some file, false =>
      let data := default EmptyString (files w !! file) +:+ s in
      if within_limit E data then
        Ok (mk_ofstream (Some file) (negb (has_room E file data)))
           (mk_world (<[file := stored E file data]> (files w)) (cout w) (cerr w)
                     (read_log w) (open_streams w))
      else
        Killed (mk_world (<[file := stored_at_limit E file data]> (files w))
                         (cout w) (cerr w) (read_log w) (open_streams w))
  | _, _ => Ok (mk_ofstream (os_path out) true) w
  end.

(** [out.close()] *)
Definition close (out : ofstream) : M ofstream := fun w =>
  match os_path out with
  | Some path =>
      Ok (mk_ofstream None (os_fail out))
         (mk_world (files w) (cout w) (cerr w) (read_log w)
                   (remove_one path (open_streams w)))
  | None => Ok (mk_ofstream None true) w
  end.

(** ** The program *)

(** [spit_newick]: writes a string to a file, appending a semicolon. *)
Definition spit_newick (contents filename : string) : M unit :=
  let out := ofstream_new in
  do out <- open (c_str filename) out;
  do out <- put contents out;
  do out <- put ";" out;
  do out <- close out;
  ret tt.

(** [is_valid_format] *)
Definition is_valid_format (fuel : nat) (format : string) : M bool :=
  let format_names := getFormatNames E in
  do f <- for_unsigned fuel (vector_size format_names) (fun i =>
            do name <- at_index format_names i;
            if String.eqb name format then ret (Return true) else ret Next) 0;
  match f with
  | Return b => ret b
  | Next => ret false
  end.

(** [display_valid_formats] *)
Definition display_valid_formats (fuel : nat) : M unit :=
  let format_names := getFormatNames E in
  do f <- for_unsigned (R := unit) fuel (vector_size format_names) (fun i =>
            do name <- at_index format_names i;
            run print_cerr tab;
            run print_cerr name;
            run print_cerr endl;
            ret Next) 0;
  ret tt.

(** Modelled from the spec: a [tree_parser] ([tree_parser.h] is not among
    the sources), as the format it was built for and the trees it holds. *)
Record tree_parser := mk_tree_parser {
  tp_format : string;
  get_trees : list tree_info
}.

(** [parse_input]: the [ifstream] is opened on the input path and handed to
    the parser; the three handlers follow in the order of the source. *)
Definition parse_input (input : string) (parser : tree_parser) : M tree_parser :=
  fun w =>
    let path := c_str input in
    let w1 := with_read w path in
    match tree_parser_parse E (tp_format parser) (files w !! file_of E path) with
    | Parsed held => Ok (mk_tree_parser (tp_format parser) held) w1
    | ThrowsNxs nxs_what =>
        (run print_cerr nxs_what; run print_cerr endl; exit 1) w1
    | ThrowsStd what =>
        (run print_cerr what; run print_cerr endl; exit 1) w1
    | ThrowsOther held =>
        (run print_cerr "unknown exception occurred while parsing tree";
         run print_cerr endl;
         ret (mk_tree_parser (tp_format parser) held)) w1
    end.

(** The body of the loop of [extract_trees]. *)
Definition extract_tree (prefix : string) (trees : list tree_info) (i : Z)
    : M (flow unit) :=
  do tree <- at_index trees i;
  let name := get_name tree in
  let name :=
    if (String.length name =? 0)%nat
    then (prefix +:+ "_") +:+ lexical_cast i
    else name in
  run spit_newick (get_newick tree) (name +:+ ".tre");
  ret Next.

(** [extract_trees] *)
Definition extract_trees (fuel : nat) (input format prefix : string) : M unit :=
  let parser := mk_tree_parser format [] in
  do parser <- parse_input input parser;
  let trees := get_trees parser in
  if vector_size trees =? 0 then throw no_trees
  else
    do f <- for_unsigned fuel (vector_size trees) (extract_tree prefix trees) 0;
    ret tt.

(** [main], from the parsed command line on; the value is the one [main]
    returns. *)
Definition main (fuel : nat) (vm : variables_map) : M Z :=
  if vm_help vm then
    run print_cout (desc E); run print_cout endl; ret 0
  else
    match vm_input vm with
    | None =>
        run print_cerr "required option, --input, missing"; run print_cerr endl;
        run print_cerr (desc E); run print_cerr endl;
        ret 1
    | Some input =>
        match vm_format vm with
        | None =>
            run print_cerr "required option, --format, missing";
            run print_cerr endl;
            run print_cerr (desc E); run print_cerr endl;
            ret 1
        | Some format =>
            do valid <- is_valid_format fuel format;
            if negb valid then
              run print_cerr "invalid input format: "; run print_cerr endl;
              run print_cerr endl;
              run print_cerr "valid formats:"; run print_cerr endl;
              run display_valid_formats fuel;
              ret 1
            else
              let prefix := default "tree" (vm_prefix vm) in
              run extract_trees fuel input format prefix;
              ret 0
        end
    end.

End Program.

(** How the process ends: with a status, killed by [abort] after
    [std::terminate] found no handler for an exception, or killed by
    [SIGXFSZ]. *)
Inductive process_end :=
| Status (status : Z)
| Aborted (message : string)
| Sigxfsz.

Definition process_of (r : result Z) : option (process_end * world) :=
  match r with
  | Ok status w => Some (Status status, w)
  | Exit status w => Some (Status status, w)
  | Raise e w => Some (Aborted (what e), w)
  | Killed w => Some (Sigxfsz, w)
  | Undefined => None
  | Fuel => None
  end.

(** ** Reading the loops and the writer

    The definitions below are not in the source: they say what the loops
    and the writer amount to, and the lemmas relate the program to them. *)

(** The body run once for each index of a list, in order, until it returns. *)
Fixpoint for_each {R} (body : Z → M (flow R)) (indices : list Z) : M (flow R) :=
  match indices with
  | [] => ret Next
  | i :: rest =>
      do f <- body i;
      match f with
      | Return r => ret (Return r)
      | Next => for_each body rest
      end
  end.

(** The files after one call of the writer that is not killed. *)
Definition file_after (E : environment) (m : gmap string string)
    (call : string * string) : gmap string string :=
  let path := c_str call.2 in
  if can_open E path
  then <[file_of E path := stored E (file_of E path) (call.1 +:+ ";")]> m
  else m.

(** The world after one call of the writer that is not killed. *)
Definition world_after (E : environment) (w : world) (call : string * string)
    : world :=
  if can_open E (c_str call.2) then
    mk_world (file_after E (files w) call) (cout w) (cerr w) (read_log w)
             (open_streams w)
  else w.

(** What the last call that opened [file], under whatever path, left
    there, if any call did. *)
Fixpoint last_write (E : environment) (file : string)
    (calls : list (string * string)) : option string :=
  match calls with
  | [] => None
  | call :: rest =>
      match last_write E file rest with
      | Some data => Some data
      | None =>
          if can_open E (c_str call.2) &&
             bool_decide (file_of E (c_str call.2) = file)
          then Some (stored E file (call.1 +:+ ";"))
          else None
      end
  end.

(** No call of the batch takes its file beyond the size limit. *)
Definition calls_within_limit (E : environment)
    (calls : list (string * string)) : Prop :=
  ∀ call, call ∈ calls → within_limit E (call.1 +:+ ";") = true.

Definition batch_within_limit (E : environment) (trees : list tree_info) : Prop :=
  ∀ tree, tree ∈ trees → within_limit E (get_newick tree +:+ ";") = true.

(** The output name of the tree at position [i], in the words of the
    specification: the tree's own name when it has one, and the prefix, an
    underscore and the position otherwise. *)
Definition spec_output_name (prefix : string) (i : nat) (tree : tree_info)
    : string :=
  if decide (get_name tree = "") then prefix +:+ "_" +:+ pretty i
  else get_name tree.

(** The call of the writer for the tree at position [i]: its Newick string
    and the file name. *)
Definition spec_call (prefix : string) (i : nat) (tree : tree_info)
    : string * string :=
  (get_newick tree, spec_output_name prefix i tree +:+ ".tre").

Definition spec_calls (prefix : string) (trees : list tree_info)
    : list (string * string) :=
  imap (spec_call prefix) trees.

(** The lines [display_valid_formats] prints. *)
Definition formats_listing (names : list string) : string :=
  foldr (λ name rest, tab +:+ name +:+ endl +:+ rest) "" names.

(** The calls of the writer made one after the other. *)
Fixpoint write_calls (E : environment) (calls : list (string * string)) : M unit :=
  match calls with
  | [] => ret tt
  | call :: rest => run spit_newick E call.1 call.2; write_calls E rest
  end.

(** The trees [get_trees] returns after each way [parse] can end. *)
Definition held_trees (outcome : parse_outcome) : list tree_info :=
  match outcome with
  | Parsed held => held
  | ThrowsNxs _ => []
  | ThrowsStd _ => []
  | ThrowsOther held => held
  end.

(** The calls of the writer a run goes through: none when a handler of
    [parse_input] leaves the program. *)
Definition run_calls (E : environment) (format prefix : string)
    (input_content : option string) : list (string * string) :=
  spec_calls prefix (held_trees (tree_parser_parse E format input_content)).

(** The world a result carries. *)
Definition world_of {A} (r : result A) : option world :=
  match r with
  | Ok _ w => Some w
  | Exit _ w => Some w
  | Raise _ w => Some w
  | Killed w => Some w
  | Undefined => None
  | Fuel => None
  end.

(** ** Sample runs *)

Definition tree_A : tree_info := mk_tree_info "A" "(a,b)".
Definition tree_A' : tree_info := mk_tree_info "A" "((a,b),c)".
Definition tree_C : tree_info := mk_tree_info "C" "(e,f)".
Definition tree_unnamed : tree_info := mk_tree_info "" "(c,d)".

(** A path without the [./] it may start with. *)
Definition strip_dot_slash (path : string) : string :=
  match path with
  | String "." (String "/" rest) => rest
  | _ => path
  end.

(** An environment with three formats, a parser that ends in [outcome]
    whatever it reads, and output files that can be opened except the
    ones in [locked]; [./name] and [name] are one file; there is no limit
    on the size of files. *)
Definition sample_env (outcome : parse_outcome) (locked : list string)
    : environment :=
  mk_env ["nexus"; "phyliptree"; "relaxedphyliptree"]
         (λ _ _, outcome)
         "Allowed options"
         (λ path, negb (bool_decide (path ∈ locked)))
         (λ _, None)
         strip_dot_slash
         None.

(** The batch of the specification: named, unnamed, named, unnamed. *)
Definition four_trees : list tree_info :=
  [tree_A; tree_unnamed; tree_C; tree_unnamed].

Definition four_env : environment := sample_env (Parsed four_trees) [].

(** A batch of two named trees where [A.tre] cannot be opened. *)
Definition locked_env : environment :=
  sample_env (Parsed [tree_A; tree_C]) ["A.tre"].

Definition empty_world : world := mk_world ∅ "" "" [] [].

(** [--input trees.nex --format nexus] *)
Definition sample_vm : variables_map :=
  mk_vm false (Some "trees.nex") (Some "nexus") None.

(** As many unnamed trees as an [unsigned] has values. *)
Definition oversize_batch : list tree_info :=
  replicate (Z.to_nat (UINT_MAX + 1)) tree_unnamed.

(** A batch of three unnamed trees. *)
Definition unnamed_batch : list tree_info :=
  [mk_tree_info "" "(a,b)"; mk_tree_info "" "(c,d)"; mk_tree_info "" "(e,f)"].

(** A tree whose name leads to the file of [tree_A] by another path. *)
Definition tree_dot_A : tree_info := mk_tree_info "./A" "(x,y)".

(** One unnamed tree, and a process that may not write files of more than
    three characters. *)
Definition limited_env : environment :=
  mk_env ["nexus"; "phyliptree"; "relaxedphyliptree"]
         (λ _ _, Parsed [tree_unnamed])
         "Allowed options"
         (λ _, true)
         (λ _, None)
         strip_dot_slash
         (Some 3%nat).

(** An environment whose parser reads Newick: two unnamed trees in
    [(a,b);(c,d);], one in [(c,d);], none in anything else. *)
Definition rereading_env : environment :=
  mk_env ["nexus"; "phyliptree"; "relaxedphyliptree"]
         (λ _ content,
            if bool_decide (content = Some "(a,b);(c,d);")
            then Parsed [mk_tree_info "" "(a,b)"; mk_tree_info "" "(c,d)"]
            else if bool_decide (content = Some "(c,d);")
            then Parsed [mk_tree_info "" "(c,d)"]
            else Parsed [])
         "Allowed options"
         (λ _, true)
         (λ _, None)
         strip_dot_slash
         None.

(** What a run may do to the world it starts in: files are added or
    rewritten but none is removed, the console streams only grow, and the
    streams open for output are the ones from before. *)
Definition only_adds (w w' : world) : Prop :=
  (∀ path, is_Some (files w !! path) → is_Some (files w' !! path)) ∧
  (∃ text, cout w' = cout w +:+ text) ∧
  (∃ text, cerr w' = cerr w +:+ text) ∧
  open_streams w' = open_streams w.

(** * Properties *)

(** ** Strings *)

Lemma string_take_all s n :
  (String.length s ≤ n)%nat → string_take n s = s.
Proof.
  revert n. induction s as [|a s IH]; intros [|n] Hn; simpl in *; try done.
  - lia.
  - f_equal. apply IH. lia.
Qed.

Lemma string_take_app s t n :
  (n ≤ String.length s)%nat → string_take n (s +:+ t) = string_take n s.
Proof.
  revert n. induction s as [|a s IH]; intros [|n] Hn; simpl in *; try done.
  - lia.
  - f_equal. apply IH. lia.
Qed.

Lemma string_app_assoc (s t u : string) : (s +:+ t) +:+ u = s +:+ t +:+ u.
Proof. induction s as [|a s IH]; [done|]. exact (f_equal (String a) IH). Qed.

Lemma string_app_empty_r (s : string) : s +:+ "" = s.
Proof. induction s as [|a s IH]; [done|]. exact (f_equal (String a) IH). Qed.

Lemma c_str_plain s :
  (∀ a, a ∈ String.list_ascii_of_string s → a ≠ zero) → c_str s = s.
Proof.
  induction s as [|a s IH]; simpl; intros H; [done|].
  destruct (Ascii.eqb_spec a zero) as [->|_].
  - exfalso. apply (H zero); [left|done].
  - f_equal. apply IH. intros b Hb. apply H. by right.
Qed.

Lemma string_length_0 s : (String.length s =? 0)%nat = bool_decide (s = "").
Proof. destruct s; by simpl. Qed.

Lemma lexical_cast_nat (i : nat) : lexical_cast (Z.of_nat i) = pretty i.
Proof. unfold lexical_cast. by destruct i. Qed.

(** ** Unsigned loops *)

Lemma incr_small i : 0 ≤ i < UINT_MAX → incr i = i + 1.
Proof. intros H. unfold incr. apply Z.mod_small. lia. Qed.

(** A loop whose bound fits an [unsigned] visits the indices up to the
    bound in order, once fuel exceeds their number. *)
Lemma for_unsigned_for_each {R} (body : Z → M (flow R)) size fuel i w :
  size ≤ UINT_MAX → 0 ≤ i ≤ size → (Z.to_nat (size - i) < fuel)%nat →
  for_unsigned fuel size body i w = for_each body (seqZ i (size - i)) w.
Proof.
  intros Hsize. revert i w.
  induction fuel as [|fuel IH]; intros i w Hi Hfuel; [lia|].
  simpl. destruct (Z.ltb_spec i size) as [Hlt|Hge].
  - rewrite seqZ_cons by lia. simpl. unfold bind.
    destruct (body i w) as [[|r] w'| | | | |]; try done.
    rewrite incr_small by lia. rewrite IH by lia.
    by replace (Z.pred (size - i)) with (size - (i + 1)) by lia.
  - by rewrite seqZ_nil by lia.
Qed.

(** ** The file writer *)

Lemma stored_room E file data :
  has_room E file data = true → stored E file data = data.
Proof.
  unfold has_room, stored. destruct (capacity E file) as [n|]; [|done].
  intros H%Nat.leb_le. by apply string_take_all.
Qed.

Lemma stored_fits E file data :
  fits E file data = true → stored E file data = data.
Proof. unfold fits. intros [Hroom _]%andb_true_iff. by apply stored_room. Qed.

Lemma stored_cut E file s t :
  has_room E file s = false → stored E file (s +:+ t) = stored E file s.
Proof.
  unfold has_room, stored. destruct (capacity E file) as [n|]; [|done].
  intros H%Nat.leb_gt. apply string_take_app. lia.
Qed.

Lemma string_length_app s t :
  String.length (s +:+ t) = (String.length s + String.length t)%nat.
Proof.
  induction s as [|a s IH]; [done|].
  change (String a s +:+ t) with (String a (s +:+ t)). simpl. by rewrite IH.
Qed.

Lemma within_limit_app E s t :
  within_limit E (s +:+ t) = true → within_limit E s = true.
Proof.
  unfold within_limit. destruct (fsize_limit E) as [n|]; [|done].
  rewrite string_length_app. intros H%Nat.leb_le. apply Nat.leb_le. lia.
Qed.

(** A call of the writer that stays within the size limit returns, and
    leaves [world_after]. *)
Lemma spit_newick_world E contents filename w :
  within_limit E (contents +:+ ";") = true →
  spit_newick E contents filename w = Ok tt (world_after E w (contents, filename)).
Proof.
  intros Hlimit.
  unfold spit_newick, world_after, file_after, bind, open. simpl.
  destruct (can_open E (c_str filename)) eqn:Hopen; simpl; [|done].
  unfold put at 1. simpl. rewrite lookup_insert_eq. simpl.
  change ("" +:+ contents) with contents.
  rewrite (within_limit_app E contents ";") by done.
  destruct (has_room E (file_of E (c_str filename)) contents) eqn:Hroom; simpl.
  - unfold put, close. simpl. rewrite lookup_insert_eq. simpl.
    rewrite (stored_room _ _ contents), Hlimit by done. simpl.
    by rewrite String.eqb_refl, !insert_insert_eq.
  - unfold put, close. simpl.
    rewrite String.eqb_refl, !insert_insert_eq.
    by rewrite stored_cut.
Qed.

(** A call that opens its file and goes beyond the size limit, on a disk
    with room for the string, kills the process. *)
Lemma spit_newick_killed E contents filename w :
  can_open E (c_str filename) = true →
  has_room E (file_of E (c_str filename)) contents = true →
  within_limit E (contents +:+ ";") = false →
  ∃ w', spit_newick E contents filename w = Killed w' ∧
        (∀ file, file ≠ file_of E (c_str filename) →
           files w' !! file = files w !! file) ∧
        is_Some (files w' !! file_of E (c_str filename)) ∧
        cout w' = cout w ∧ cerr w' = cerr w ∧ read_log w' = read_log w.
Proof.
  intros Hopen Hroom Hlimit.
  unfold spit_newick, bind, open. simpl. rewrite Hopen. simpl.
  unfold put at 1. simpl. rewrite lookup_insert_eq. simpl.
  change ("" +:+ contents) with contents.
  destruct (within_limit E contents) eqn:Hfirst.
  - unfold put. simpl. rewrite lookup_insert_eq, Hroom. simpl.
    rewrite (stored_room _ _ contents), Hlimit by done.
    eexists. split; [done|]. simpl. split; [|split; [|done]].
    + intros file Hfile. by rewrite !lookup_insert_ne.
    + rewrite lookup_insert_eq. by eexists.
  - eexists. split; [done|]. simpl. split; [|split; [|done]].
    + intros file Hfile. by rewrite !lookup_insert_ne.
    + rewrite lookup_insert_eq. by eexists.
Qed.

Lemma files_world_after E w call :
  files (world_after E w call) = file_after E (files w) call.
Proof.
  unfold world_after, file_after. by destruct (can_open E (c_str call.2)).
Qed.

Lemma world_after_console E w call :
  cout (world_after E w call) = cout w ∧ cerr (world_after E w call) = cerr w ∧
  read_log (world_after E w call) = read_log w ∧
  open_streams (world_after E w call) = open_streams w.
Proof. unfold world_after. by destruct (can_open E (c_str call.2)). Qed.

Lemma files_foldl_world_after E calls w :
  files (foldl (world_after E) w calls) = foldl (file_after E) (files w) calls.
Proof.
  revert w. induction calls as [|call calls IH]; intros w; simpl; [done|].
  by rewrite IH, files_world_after.
Qed.

Lemma foldl_world_after_console E calls w :
  cout (foldl (world_after E) w calls) = cout w ∧
  cerr (foldl (world_after E) w calls) = cerr w ∧
  read_log (foldl (world_after E) w calls) = read_log w ∧
  open_streams (foldl (world_after E) w calls) = open_streams w.
Proof.
  revert w. induction calls as [|call calls IH]; intros w; simpl; [done|].
  destruct (IH (world_after E w call)) as (-> & -> & -> & ->).
  apply world_after_console.
Qed.

(** A file holds what the last call that opened it left, and what it held
    before when no call opened it. *)
Lemma lookup_foldl_file_after E calls m path :
  foldl (file_after E) m calls !! path =
  match last_write E path calls with
  | Some data => Some data
  | None => m !! path
  end.
Proof.
  revert m. induction calls as [|call calls IH]; intros m; simpl; [done|].
  rewrite IH. destruct (last_write E path calls); [done|].
  unfold file_after. destruct (can_open E (c_str call.2)); simpl; [|done].
  case_bool_decide as Hp.
  - by rewrite <- Hp, lookup_insert_eq.
  - by rewrite lookup_insert_ne.
Qed.

(** Running the same calls again changes no file. *)
Lemma foldl_file_after_twice E calls m :
  foldl (file_after E) (foldl (file_after E) m calls) calls =
  foldl (file_after E) m calls.
Proof.
  apply map_eq. intros path. rewrite !lookup_foldl_file_after.
  by destruct (last_write E path calls).
Qed.

(** The call at position [j] decides the file when it can open it and no
    later call goes to the same file. *)
Lemma last_write_at E calls j call :
  calls !! j = Some call →
  can_open E (c_str call.2) = true →
  (∀ k call', (j < k)%nat → calls !! k = Some call' →
              file_of E (c_str call'.2) ≠ file_of E (c_str call.2)) →
  last_write E (file_of E (c_str call.2)) calls =
  Some (stored E (file_of E (c_str call.2)) (call.1 +:+ ";")).
Proof.
  revert j. induction calls as [|c calls IH]; intros j Hj Hopen Hlast; [done|].
  destruct j as [|j]; simpl in *.
  - injection Hj as ->. rewrite Hopen, bool_decide_eq_true_2 by done. simpl.
    assert (last_write E (file_of E (c_str call.2)) calls = None) as ->; [|done].
    clear IH. revert Hlast. generalize (file_of E (c_str call.2)) as file.
    intros file Hlast.
    induction calls as [|c calls IH]; simpl; [done|].
    rewrite IH.
    + rewrite bool_decide_eq_false_2, andb_false_r; [done|].
      apply (Hlast 1%nat); [lia|done].
    + intros k c' Hk Hc'. destruct k as [|k]; [lia|].
      apply (Hlast (S (S k))); [lia|done].
  - erewrite IH; [done|done|done|].
    intros k c' Hk Hc'. apply (Hlast (S k)); [lia|done].
Qed.

(** ** The loop of [extract_trees] *)

(** One iteration is one call of the writer. *)
Lemma extract_tree_call E prefix trees (i : nat) tree w :
  trees !! i = Some tree →
  extract_tree E prefix trees (Z.of_nat i) w =
  (run spit_newick E (get_newick tree) (spec_output_name prefix i tree +:+ ".tre");
   ret Next) w.
Proof.
  intros Hi. unfold extract_tree, bind, at_index.
  rewrite Nat2Z.id, Hi. unfold spec_output_name.
  rewrite string_length_0, lexical_cast_nat, string_app_assoc.
  case_bool_decide; by case_decide.
Qed.

Lemma extract_tree_at E prefix trees (i : nat) tree w :
  trees !! i = Some tree →
  within_limit E (get_newick tree +:+ ";") = true →
  extract_tree E prefix trees (Z.of_nat i) w =
  Ok Next (world_after E w (spec_call prefix i tree)).
Proof.
  intros Hi Hlimit. rewrite (extract_tree_call _ _ _ _ tree) by done.
  unfold bind. by rewrite spit_newick_world.
Qed.

Lemma for_each_extract_tree E prefix seen todo w :
  for_each (extract_tree E prefix (seen ++ todo))
           (seqZ (Z.of_nat (length seen)) (Z.of_nat (length todo))) w =
  (run write_calls E (imap (λ i, spec_call prefix (length seen + i)) todo);
   ret Next) w.
Proof.
  revert seen w. induction todo as [|tree todo IH]; intros seen w; [done|].
  rewrite seqZ_cons by (simpl; lia). simpl. unfold bind at 1.
  rewrite (extract_tree_call _ _ _ _ tree)
    by (by rewrite lookup_app_r, Nat.sub_diag by lia).
  rewrite Nat.add_0_r. unfold bind. fold (spec_call prefix (length seen) tree).
  simpl.
  destruct (spit_newick E _ _ w) as [[] w'|s w'|e w'|w'| |]; try done.
  simpl.
  replace (Z.succ (Z.of_nat (length seen)))
    with (Z.of_nat (length (seen ++ [tree]))) by (rewrite length_app; simpl; lia).
  replace (Z.pred (Z.of_nat (S (length todo)))) with (Z.of_nat (length todo)) by lia.
  replace (seen ++ tree :: todo) with ((seen ++ [tree]) ++ todo)
    by (by rewrite <- app_assoc).
  rewrite IH. unfold bind.
  assert (imap (λ i, spec_call prefix (length (seen ++ [tree]) + i)) todo =
          imap ((λ i, spec_call prefix (length seen + i)) ∘ S) todo) as ->; [|done].
  apply imap_ext. intros i t _. simpl. rewrite length_app. simpl.
  f_equal. lia.
Qed.

(** With a batch that fits an [unsigned] and fuel beyond its length, the
    loop makes the calls of [spec_calls] in order. *)
Lemma extract_loop_calls E prefix trees fuel w :
  vector_size trees ≤ UINT_MAX → (length trees < fuel)%nat →
  for_unsigned fuel (vector_size trees) (extract_tree E prefix trees) 0 w =
  (run write_calls E (spec_calls prefix trees); ret Next) w.
Proof.
  intros Hsize Hfuel. unfold vector_size in *.
  rewrite for_unsigned_for_each by lia.
  rewrite Z.sub_0_r.
  apply (for_each_extract_tree E prefix [] trees w).
Qed.

Lemma write_calls_world E calls w :
  calls_within_limit E calls →
  write_calls E calls w = Ok tt (foldl (world_after E) w calls).
Proof.
  revert w. induction calls as [|[contents filename] calls IH]; intros w Hlimit;
    [done|].
  simpl. unfold bind.
  rewrite spit_newick_world by (apply (Hlimit (contents, filename)); by left).
  apply IH. intros call Hcall. apply Hlimit. by right.
Qed.

Lemma spec_calls_within_limit E prefix trees :
  batch_within_limit E trees → calls_within_limit E (spec_calls prefix trees).
Proof.
  intros Hlimit call [i Hi]%list_elem_of_lookup.
  unfold spec_calls in Hi. rewrite list_lookup_imap in Hi.
  destruct (trees !! i) as [tree|] eqn:Htree; [|done].
  injection Hi as <-. apply Hlimit. by apply list_elem_of_lookup; exists i.
Qed.

Lemma extract_loop E prefix trees fuel w :
  vector_size trees ≤ UINT_MAX → (length trees < fuel)%nat →
  batch_within_limit E trees →
  for_unsigned fuel (vector_size trees) (extract_tree E prefix trees) 0 w =
  Ok Next (foldl (world_after E) w (spec_calls prefix trees)).
Proof.
  intros Hsize Hfuel Hlimit. rewrite extract_loop_calls by done.
  unfold bind. by rewrite write_calls_world by by apply spec_calls_within_limit.
Qed.

(** ** The format catalog *)

Lemma for_each_is_valid_format (names seen todo : list string) format w :
  names = seen ++ todo →
  for_each (λ i, do name <- at_index names i;
                 if String.eqb name format then ret (Return true) else ret Next)
           (seqZ (Z.of_nat (length seen)) (Z.of_nat (length todo))) w =
  Ok (if bool_decide (format ∈ todo) then Return true else Next) w.
Proof.
  revert seen. induction todo as [|name todo IH]; intros seen ->; [done|].
  rewrite seqZ_cons by (simpl; lia). simpl. unfold bind at 1, bind at 1, at_index.
  rewrite Nat2Z.id, lookup_app_r, Nat.sub_diag by lia. simpl.
  destruct (String.eqb_spec name format) as [->|Hne].
  - by rewrite bool_decide_eq_true_2 by left.
  - unfold ret at 1.
    replace (Z.succ (Z.of_nat (length seen)))
      with (Z.of_nat (length (seen ++ [name]))) by (rewrite length_app; simpl; lia).
    replace (Z.pred (Z.of_nat (S (length todo)))) with (Z.of_nat (length todo)) by lia.
    rewrite IH by (by rewrite <- app_assoc).
    rewrite (bool_decide_ext (format ∈ name :: todo) (format ∈ todo)); [done|].
    rewrite elem_of_cons. split; [intros [Heq|Hin]; [by subst|done]|by right].
Qed.

(** With a catalog that fits an [unsigned] and fuel beyond its length,
    [is_valid_format] is the membership test, and changes nothing. *)
Lemma is_valid_format_elem_of E fuel format w :
  vector_size (getFormatNames E) ≤ UINT_MAX →
  (length (getFormatNames E) < fuel)%nat →
  is_valid_format E fuel format w =
  Ok (bool_decide (format ∈ getFormatNames E)) w.
Proof.
  intros Hsize Hfuel. unfold vector_size in *.
  unfold is_valid_format, vector_size. unfold bind at 1.
  rewrite for_unsigned_for_each by lia. rewrite Z.sub_0_r.
  rewrite (for_each_is_valid_format (getFormatNames E) [] (getFormatNames E) format w eq_refl
           : for_each _ (seqZ 0 _) w = _).
  by case_bool_decide.
Qed.

Lemma for_each_display (names seen todo : list string) w :
  names = seen ++ todo →
  for_each (R := unit)
           (λ i, do name <- at_index names i;
                 run print_cerr tab; run print_cerr name; run print_cerr endl;
                 ret Next)
           (seqZ (Z.of_nat (length seen)) (Z.of_nat (length todo))) w =
  Ok Next (with_cerr w (formats_listing todo)).
Proof.
  revert seen w. induction todo as [|name todo IH]; intros seen w ->.
  - simpl. unfold ret, with_cerr. rewrite string_app_empty_r. by destruct w.
  - rewrite seqZ_cons by (simpl; lia). simpl. unfold bind at 1, bind at 1, at_index.
    rewrite Nat2Z.id, lookup_app_r, Nat.sub_diag by lia. simpl.
    unfold bind, print_cerr, ret. simpl.
    replace (Z.succ (Z.of_nat (length seen)))
      with (Z.of_nat (length (seen ++ [name]))) by (rewrite length_app; simpl; lia).
    replace (Z.pred (Z.of_nat (S (length todo)))) with (Z.of_nat (length todo)) by lia.
    rewrite IH by (by rewrite <- app_assoc).
    unfold with_cerr. simpl. by rewrite !string_app_assoc.
Qed.

Lemma display_valid_formats_listing E fuel w :
  vector_size (getFormatNames E) ≤ UINT_MAX →
  (length (getFormatNames E) < fuel)%nat →
  display_valid_formats E fuel w =
  Ok tt (with_cerr w (formats_listing (getFormatNames E))).
Proof.
  intros Hsize Hfuel. unfold vector_size in *.
  unfold display_valid_formats, vector_size. unfold bind at 1.
  rewrite for_unsigned_for_each by lia. rewrite Z.sub_0_r.
  by rewrite (for_each_display (getFormatNames E) [] (getFormatNames E) w eq_refl
              : for_each _ (seqZ 0 _) w = _).
Qed.

(** ** Whole runs *)

(** Runs [extract_trees] up to the handlers of [parse_input]. *)
Ltac enter_extract_trees :=
  unfold extract_trees; unfold bind at 1; unfold parse_input; simpl.

(** After a parse that leaves trees, [extract_trees] is the calls of the
    writer. *)
Lemma extract_trees_calls E fuel input format prefix trees w :
  tree_parser_parse E format (files w !! file_of E (c_str input)) = Parsed trees →
  trees ≠ [] →
  vector_size trees ≤ UINT_MAX → (length trees < fuel)%nat →
  extract_trees E fuel input format prefix w =
  write_calls E (spec_calls prefix trees) (with_read w (c_str input)).
Proof.
  intros Hparse Hne Hsize Hfuel.
  enter_extract_trees. rewrite Hparse. simpl.
  destruct (Z.eqb_spec (vector_size trees) 0) as [H0|_].
  - destruct trees; [done|]. unfold vector_size in H0. simpl in H0. lia.
  - unfold bind at 1. rewrite extract_loop_calls by done. unfold bind.
    by destruct (write_calls E _ _) as [[] w'|s w'|e w'|w'| |].
Qed.

(** After a successful parse with trees, [extract_trees] is its loop. *)
Lemma extract_trees_parsed E fuel input format prefix trees w :
  tree_parser_parse E format (files w !! file_of E (c_str input)) = Parsed trees →
  trees ≠ [] →
  vector_size trees ≤ UINT_MAX → (length trees < fuel)%nat →
  batch_within_limit E trees →
  extract_trees E fuel input format prefix w =
  Ok tt (foldl (world_after E) (with_read w (c_str input)) (spec_calls prefix trees)).
Proof.
  intros Hparse Hne Hsize Hfuel Hlimit.
  rewrite (extract_trees_calls _ _ _ _ _ trees) by done.
  by apply write_calls_world, spec_calls_within_limit.
Qed.

(** After a successful parse without trees, it throws. *)
Lemma extract_trees_empty E fuel input format prefix w :
  tree_parser_parse E format (files w !! file_of E (c_str input)) = Parsed [] →
  extract_trees E fuel input format prefix w =
  Raise no_trees (with_read w (c_str input)).
Proof.
  intros Hparse. enter_extract_trees. by rewrite Hparse.
Qed.

(** After the catch-all handler, it goes on with what the parser holds. *)
Lemma extract_trees_unknown E fuel input format prefix held w :
  tree_parser_parse E format (files w !! file_of E (c_str input)) =
    ThrowsOther held →
  vector_size held ≤ UINT_MAX → (length held < fuel)%nat →
  batch_within_limit E held →
  let w1 := with_cerr (with_cerr (with_read w (c_str input))
                         "unknown exception occurred while parsing tree") endl in
  extract_trees E fuel input format prefix w =
  match held with
  | [] => Raise no_trees w1
  | _ => Ok tt (foldl (world_after E) w1 (spec_calls prefix held))
  end.
Proof.
  intros Hparse Hsize Hfuel Hlimit.
  enter_extract_trees. rewrite Hparse. simpl.
  destruct held as [|tree held]; [done|].
  destruct (Z.eqb_spec (vector_size (tree :: held)) 0) as [H0|_].
  - unfold vector_size in H0. simpl in H0. lia.
  - unfold bind. by rewrite extract_loop.
Qed.

(** Whatever the parser does, the files after [extract_trees] are the files
    before with the calls of [run_calls] applied. *)
Lemma extract_trees_files E fuel input format prefix w :
  let outcome := tree_parser_parse E format (files w !! file_of E (c_str input)) in
  vector_size (held_trees outcome) ≤ UINT_MAX →
  (length (held_trees outcome) < fuel)%nat →
  batch_within_limit E (held_trees outcome) →
  ∃ w', world_of (extract_trees E fuel input format prefix w) = Some w' ∧
        files w' = foldl (file_after E) (files w)
                         (run_calls E format prefix
                            (files w !! file_of E (c_str input))).
Proof.
  intros outcome Hsize Hfuel Hlimit. unfold run_calls. fold outcome.
  destruct outcome as [held|msg|msg|held] eqn:Hparse; simpl in *.
  - destruct held as [|tree held].
    + rewrite extract_trees_empty by done. by eexists.
    + rewrite (extract_trees_parsed _ _ _ _ _ (tree :: held)) by done.
      eexists. split; [done|]. by rewrite files_foldl_world_after.
  - enter_extract_trees. unfold outcome in Hparse. rewrite Hparse. by eexists.
  - enter_extract_trees. unfold outcome in Hparse. rewrite Hparse. by eexists.
  - rewrite (extract_trees_unknown _ _ _ _ _ held) by done.
    destruct held as [|tree held]; [by eexists|].
    eexists. split; [done|]. by rewrite files_foldl_world_after.
Qed.

(** With a valid request, [main] is [extract_trees] followed by [return 0]. *)
Lemma main_valid E fuel vm input format w :
  vm_help vm = false → vm_input vm = Some input → vm_format vm = Some format →
  format ∈ getFormatNames E →
  vector_size (getFormatNames E) ≤ UINT_MAX →
  (length (getFormatNames E) < fuel)%nat →
  main E fuel vm w =
  (run extract_trees E fuel input format (default "tree" (vm_prefix vm)); ret 0) w.
Proof.
  intros Hhelp Hinput Hformat Hin Hsize Hfuel.
  unfold main. rewrite Hhelp, Hinput, Hformat. unfold bind at 1.
  rewrite is_valid_format_elem_of by done.
  by rewrite bool_decide_eq_true_2.
Qed.

Lemma lookup_spec_calls prefix trees i :
  spec_calls prefix trees !! i = spec_call prefix i <$> trees !! i.
Proof. apply list_lookup_imap. Qed.

(** At the end of the calls, the file of the call at position [j] holds what
    that call wrote when it could open the file and no later call went to
    the same file. *)
Lemma files_after_calls E calls j call w :
  calls !! j = Some call →
  can_open E (c_str call.2) = true →
  (∀ k call', (j < k)%nat → calls !! k = Some call' →
              file_of E (c_str call'.2) ≠ file_of E (c_str call.2)) →
  files (foldl (world_after E) w calls) !! file_of E (c_str call.2) =
  Some (stored E (file_of E (c_str call.2)) (call.1 +:+ ";")).
Proof.
  intros Hj Hopen Hlast.
  rewrite files_foldl_world_after, lookup_foldl_file_after.
  by rewrite (last_write_at E calls j call).
Qed.

(** ** Output names *)

(** C1: for a parsed batch, [extract_trees] is the calls of the writer for
    the trees in order, the call for the tree at position [i] being on its
    Newick string and the file name [spec_output_name prefix i tree]
    followed by [.tre]; that name is the tree's own name when it is not
    empty and [prefix_i], with [i] the position in the parsed sequence,
    when it is; and the file that name leads to holds the tree at the end
    of the run when no call goes beyond the file size limit, the file can
    be opened and no later tree goes to the same file. *)
Theorem extract_trees_output_names E fuel input format prefix trees w :
  tree_parser_parse E format (files w !! file_of E (c_str input)) = Parsed trees →
  trees ≠ [] →
  vector_size trees ≤ UINT_MAX → (length trees < fuel)%nat →
  extract_trees E fuel input format prefix w =
    write_calls E (spec_calls prefix trees) (with_read w (c_str input)) ∧
  ∀ i tree, trees !! i = Some tree →
    let name := spec_output_name prefix i tree in
    let file := file_of E (c_str (name +:+ ".tre")) in
    spec_calls prefix trees !! i = Some (get_newick tree, name +:+ ".tre") ∧
    (get_name tree ≠ "" → name = get_name tree) ∧
    (get_name tree = "" → name = prefix +:+ "_" +:+ pretty i) ∧
    (batch_within_limit E trees →
     can_open E (c_str (name +:+ ".tre")) = true →
     (∀ k tree', (i < k)%nat → trees !! k = Some tree' →
        file_of E (c_str (spec_output_name prefix k tree' +:+ ".tre")) ≠ file) →
     ∃ w', extract_trees E fuel input format prefix w = Ok tt w' ∧
           files w' !! file = Some (stored E file (get_newick tree +:+ ";"))).
Proof.
  intros Hparse Hne Hsize Hfuel.
  split; [by apply extract_trees_calls|].
  intros i tree Hi name file.
  assert (spec_calls prefix trees !! i = Some (get_newick tree, name +:+ ".tre"))
    as Hcall by (by rewrite lookup_spec_calls, Hi).
  split; [done|]. unfold name, spec_output_name.
  split; [by case_decide|]. split; [by case_decide|].
  fold (spec_output_name prefix i tree). fold name.
  intros Hlimit Hopen Hlast.
  rewrite (extract_trees_parsed _ _ _ _ _ trees) by done.
  eexists. split; [done|].
  apply (files_after_calls E _ i (get_newick tree, name +:+ ".tre")); [done|done|].
  intros k call' Hk Hcall'. rewrite lookup_spec_calls in Hcall'.
  destruct (trees !! k) as [tree'|] eqn:Hk'; [|done].
  injection Hcall' as <-. simpl. by apply (Hlast k).
Qed.

Lemma extract_trees_output_names_witness :
  spec_calls "tree" four_trees =
    [("(a,b)", "A.tre"); ("(c,d)", "tree_1.tre"); ("(e,f)", "C.tre");
     ("(c,d)", "tree_3.tre")] ∧
  extract_trees four_env 5 "trees.nex" "nexus" "tree" empty_world =
    write_calls four_env (spec_calls "tree" four_trees)
                (with_read empty_world "trees.nex").
Proof.
  split; [reflexivity|].
  apply (extract_trees_output_names four_env 5 "trees.nex" "nexus" "tree"
           four_trees empty_world).
  - reflexivity.
  - discriminate.
  - vm_compute. discriminate.
  - simpl. lia.
Defined.

(** ** File contents *)

(** C2: when the file can be opened and has room, [spit_newick] returns,
    the file then holds exactly the string followed by one semicolon,
    whatever it held before, no stream is left open, and no other file is
    touched. *)
Theorem spit_newick_contents E contents filename w :
  can_open E (c_str filename) = true →
  fits E (file_of E (c_str filename)) (contents +:+ ";") = true →
  ∃ w', spit_newick E contents filename w = Ok tt w' ∧
        files w' !! file_of E (c_str filename) = Some (contents +:+ ";") ∧
        (∀ file, file ≠ file_of E (c_str filename) →
           files w' !! file = files w !! file) ∧
        open_streams w' = open_streams w ∧
        cout w' = cout w ∧ cerr w' = cerr w.
Proof.
  intros Hopen Hfits. eexists. split.
  { apply spit_newick_world. unfold fits in Hfits.
    by apply andb_true_iff in Hfits as [_ ?]. }
  unfold world_after, file_after. simpl. rewrite Hopen. simpl.
  rewrite stored_fits by done.
  split; [apply lookup_insert_eq|].
  split; [|done]. intros file Hfile. by apply lookup_insert_ne.
Qed.

Lemma spit_newick_contents_witness :
  ∃ w', spit_newick (sample_env (Parsed []) []) "((a,b),c)" "tree_0.tre"
          (mk_world {["tree_0.tre" := "an older and longer file"]} "" "" [] []) =
        Ok tt w' ∧
        files w' !! "tree_0.tre" = Some "((a,b),c);".
Proof.
  destruct (spit_newick_contents (sample_env (Parsed []) []) "((a,b),c)"
              "tree_0.tre"
              (mk_world {["tree_0.tre" := "an older and longer file"]} "" "" [] []))
    as (w' & Hrun & Hfile & _); [reflexivity|reflexivity|].
  exists w'. split; [exact Hrun|exact Hfile].
Defined.

(** ** Failures *)

(** C3: with a valid request and an input that parses to no tree, [main]
    ends in the [no_trees] exception, which nothing catches: the process
    is aborted with the fixed message of the exception, its end is not
    status 0, and the files are the ones from before. *)
Theorem no_trees_error E fuel vm input format w :
  vm_help vm = false → vm_input vm = Some input → vm_format vm = Some format →
  format ∈ getFormatNames E →
  vector_size (getFormatNames E) ≤ UINT_MAX →
  (length (getFormatNames E) < fuel)%nat →
  tree_parser_parse E format (files w !! file_of E (c_str input)) = Parsed [] →
  ∃ w', main E fuel vm w = Raise no_trees w' ∧
        process_of (main E fuel vm w) =
          Some (Aborted "the file was parsed successfully, but no trees were found",
                w') ∧
        fst <$> process_of (main E fuel vm w) ≠ Some (Status 0) ∧
        files w' = files w ∧ open_streams w' = open_streams w.
Proof.
  intros Hhelp Hinput Hformat Hin Hsize Hfuel Hparse.
  rewrite (main_valid E fuel vm input format) by done.
  unfold bind. rewrite extract_trees_empty by done.
  eexists. by repeat split.
Qed.

Lemma no_trees_error_witness :
  ∃ w', main (sample_env (Parsed []) []) 4 sample_vm empty_world =
        Raise no_trees w' ∧ files w' = ∅.
Proof.
  destruct (no_trees_error (sample_env (Parsed []) []) 4 sample_vm
              "trees.nex" "nexus" empty_world)
    as (w' & Hrun & _ & _ & Hfiles & _).
  - reflexivity.
  - reflexivity.
  - reflexivity.
  - apply list_elem_of_here.
  - vm_compute. discriminate.
  - simpl. lia.
  - reflexivity.
  - exists w'. split; [exact Hrun|exact Hfiles].
Defined.

(** The catch-all handler as it is written: it prints its message and
    [parse_input] returns to [extract_trees] with what the parser holds,
    where the two handlers before it leave through [exit(1)]. *)
Lemma parse_input_unknown_returns E input parser held w :
  tree_parser_parse E (tp_format parser) (files w !! file_of E (c_str input)) =
    ThrowsOther held →
  parse_input E input parser w =
  Ok (mk_tree_parser (tp_format parser) held)
     (with_cerr (with_cerr (with_read w (c_str input))
                   "unknown exception occurred while parsing tree") endl).
Proof. intros Hparse. unfold parse_input. simpl. by rewrite Hparse. Qed.

(** The two handlers before it end the process with status 1. *)
Lemma parse_input_nxs_exits E input parser message w :
  tree_parser_parse E (tp_format parser) (files w !! file_of E (c_str input)) =
    ThrowsNxs message →
  parse_input E input parser w =
  Exit 1 (with_cerr (with_cerr (with_read w (c_str input)) message) endl).
Proof. intros Hparse. unfold parse_input. simpl. by rewrite Hparse. Qed.

Lemma parse_input_std_exits E input parser message w :
  tree_parser_parse E (tp_format parser) (files w !! file_of E (c_str input)) =
    ThrowsStd message →
  parse_input E input parser w =
  Exit 1 (with_cerr (with_cerr (with_read w (c_str input)) message) endl).
Proof. intros Hparse. unfold parse_input. simpl. by rewrite Hparse. Qed.

(** C4, a run: the parser throws something that is neither an
    [NxsException] nor a [std::exception] after it has kept one tree.  The
    message is printed, the tree is written to [tree_0.tre] and [main]
    returns 0. *)
Theorem unknown_failure_run_continues :
  main (sample_env (ThrowsOther [tree_unnamed]) []) 4 sample_vm empty_world =
  Ok 0 (mk_world {["tree_0.tre" := "(c,d);"]} ""
          ("unknown exception occurred while parsing tree" +:+ endl)
          ["trees.nex"] []).
Proof. reflexivity. Qed.

(** The same failure when the parser holds no tree: the message is printed
    and the run ends in the [no_trees] exception, not in [exit(1)]. *)
Lemma unknown_failure_without_trees :
  main (sample_env (ThrowsOther []) []) 4 sample_vm empty_world =
  Raise no_trees
    (mk_world ∅ "" ("unknown exception occurred while parsing tree" +:+ endl)
       ["trees.nex"] []).
Proof. reflexivity. Qed.

(** A parse error of NCL on the same command line, for comparison: status 1
    and no file. *)
Lemma nxs_failure_exits :
  main (sample_env (ThrowsNxs "Expecting ';'") []) 4 sample_vm empty_world =
  Exit 1 (mk_world ∅ "" ("Expecting ';'" +:+ endl) ["trees.nex"] []).
Proof. reflexivity. Qed.

(** C5, as the code behaves: the file of the first tree cannot be opened;
    nothing is reported, the second tree is written all the same and
    [main] returns 0. *)
Lemma write_failure_does_not_stop :
  can_open locked_env (c_str "A.tre") = false ∧
  spit_newick locked_env "(a,b)" "A.tre" (with_read empty_world "trees.nex") =
    Ok tt (with_read empty_world "trees.nex") ∧
  main locked_env 4 sample_vm empty_world =
    Ok 0 (mk_world {["C.tre" := "(e,f);"]} "" "" ["trees.nex"] []).
Proof. by repeat split. Qed.

(** C5 amended: as long as no write goes beyond the file size limit of the
    process, the writer returns whether or not the file could be opened
    or the disk had room, and reports nothing; with a valid request and a
    parsed batch, [main] goes through all the trees and returns 0, the
    error stream is left as it was, every tree whose file can be opened
    and is not opened again by a later tree has its file, cut to the room
    there is, and a file that no tree could open is left as it was. *)
Theorem write_failure_is_skipped E fuel vm input format trees w :
  vm_help vm = false → vm_input vm = Some input → vm_format vm = Some format →
  format ∈ getFormatNames E →
  vector_size (getFormatNames E) ≤ UINT_MAX →
  (length (getFormatNames E) < fuel)%nat →
  tree_parser_parse E format (files w !! file_of E (c_str input)) = Parsed trees →
  trees ≠ [] →
  vector_size trees ≤ UINT_MAX → (length trees < fuel)%nat →
  batch_within_limit E trees →
  let prefix := default "tree" (vm_prefix vm) in
  let path i tree := c_str (spec_output_name prefix i tree +:+ ".tre") in
  (∀ contents filename w0, within_limit E (contents +:+ ";") = true →
     ∃ w1, spit_newick E contents filename w0 = Ok tt w1 ∧
           cerr w1 = cerr w0 ∧ cout w1 = cout w0) ∧
  ∃ w', main E fuel vm w = Ok 0 w' ∧
        cerr w' = cerr w ∧ cout w' = cout w ∧
        (∀ j tree, trees !! j = Some tree →
           can_open E (path j tree) = true →
           (∀ k tree', (j < k)%nat → trees !! k = Some tree' →
              file_of E (path k tree') ≠ file_of E (path j tree)) →
           files w' !! file_of E (path j tree) =
           Some (stored E (file_of E (path j tree)) (get_newick tree +:+ ";"))) ∧
        (∀ file, (∀ j tree, trees !! j = Some tree →
                    file_of E (path j tree) = file →
                    can_open E (path j tree) = false) →
           files w' !! file = files w !! file).
Proof.
  intros Hhelp Hinput Hformat Hin Hsize Hfuel Hparse Hne Hsize' Hfuel' Hlimit
         prefix path.
  split.
  { intros contents filename w0 Hwithin. eexists.
    split; [by apply spit_newick_world|].
    by destruct (world_after_console E w0 (contents, filename)) as (-> & -> & _). }
  rewrite (main_valid E fuel vm input format) by done.
  unfold bind. rewrite (extract_trees_parsed _ _ _ _ _ trees) by done.
  eexists. split; [done|].
  destruct (foldl_world_after_console E (spec_calls prefix trees)
              (with_read w (c_str input))) as (Hcout & Hcerr & _).
  fold prefix. split; [by rewrite Hcerr|]. split; [by rewrite Hcout|]. split.
  - intros j tree Hj Hopen Hlast.
    apply (files_after_calls E _ j (spec_call prefix j tree)).
    + by rewrite lookup_spec_calls, Hj.
    + done.
    + intros k call' Hk Hcall'. rewrite lookup_spec_calls in Hcall'.
      destruct (trees !! k) as [tree'|] eqn:Hk'; [|done].
      injection Hcall' as <-. by apply (Hlast k).
  - intros file Hfile. rewrite files_foldl_world_after, lookup_foldl_file_after.
    assert (∀ calls,
              (∀ call, call ∈ calls → file_of E (c_str call.2) = file →
                 can_open E (c_str call.2) = false) →
              last_write E file calls = None) as Hnone.
    { induction calls as [|call calls IH]; intros Hcalls; [done|]. simpl.
      rewrite IH by (intros c Hc; apply Hcalls; by right).
      case_bool_decide as Hcp; [|by rewrite andb_false_r].
      rewrite (Hcalls call); [done|by left|done]. }
    rewrite Hnone; [done|]. intros call [j Hj]%list_elem_of_lookup Hcall.
    rewrite lookup_spec_calls in Hj.
    destruct (trees !! j) as [tree|] eqn:Hj'; [|done].
    injection Hj as <-. by apply (Hfile j tree).
Qed.

Lemma write_failure_is_skipped_witness :
  ∃ w', main locked_env 4 sample_vm
             empty_world = Ok 0 w' ∧
        cerr w' = "" ∧
        files w' !! "C.tre" = Some "(e,f);" ∧
        files w' !! "A.tre" = None.
Proof.
  destruct (write_failure_is_skipped
              locked_env 4 sample_vm
              "trees.nex" "nexus" [tree_A; tree_C] empty_world)
    as (_ & w' & Hrun & Hcerr & _ & Hwritten & Hkept).
  - reflexivity.
  - reflexivity.
  - reflexivity.
  - apply list_elem_of_here.
  - vm_compute. discriminate.
  - simpl. lia.
  - reflexivity.
  - discriminate.
  - vm_compute. discriminate.
  - simpl. lia.
  - intros tree Htree. reflexivity.
  - exists w'. split; [exact Hrun|]. split; [exact Hcerr|]. split.
    + apply (Hwritten 1%nat tree_C); [reflexivity|reflexivity|].
      intros k tree' Hk Hlookup. destruct k as [|[|k]]; [lia|lia|discriminate].
    + apply (Hkept "A.tre"). intros j tree Hlookup Hfile.
      destruct j as [|[|j]]; [| |discriminate Hlookup];
        injection Hlookup as <-; [reflexivity|].
      vm_compute in Hfile. discriminate Hfile.
Defined.

(** ** The format catalog *)

(** C7: with a catalog that fits an [unsigned], [is_valid_format] returns,
    changes nothing, and its value is [true] exactly when the string is one
    of the names of [getFormatNames], compared character by character. *)
Theorem is_valid_format_iff E fuel format w :
  vector_size (getFormatNames E) ≤ UINT_MAX →
  (length (getFormatNames E) < fuel)%nat →
  ∃ b, is_valid_format E fuel format w = Ok b w ∧
       (b = true ↔ format ∈ getFormatNames E) ∧
       (b = false ↔ format ∉ getFormatNames E).
Proof.
  intros Hsize Hfuel. eexists. split; [by apply is_valid_format_elem_of|].
  split.
  - apply bool_decide_eq_true.
  - apply bool_decide_eq_false.
Qed.

Lemma is_valid_format_iff_witness :
  is_valid_format four_env 4 "nexus" empty_world = Ok true empty_world ∧
  is_valid_format four_env 4 "Nexus" empty_world = Ok false empty_world ∧
  is_valid_format four_env 4 "nexus " empty_world = Ok false empty_world.
Proof.
  assert (vector_size (getFormatNames four_env) ≤ UINT_MAX) as Hsize
    by (vm_compute; discriminate).
  assert (length (getFormatNames four_env) < 4)%nat as Hfuel by (simpl; lia).
  split; [|split].
  - destruct (is_valid_format_iff four_env 4 "nexus" empty_world Hsize Hfuel)
      as ([|] & Hrun & _ & _); [exact Hrun|discriminate].
  - destruct (is_valid_format_iff four_env 4 "Nexus" empty_world Hsize Hfuel)
      as ([|] & Hrun & _ & _); [discriminate|exact Hrun].
  - destruct (is_valid_format_iff four_env 4 "nexus " empty_world Hsize Hfuel)
      as ([|] & Hrun & _ & _); [discriminate|exact Hrun].
Defined.

(** C6: with [--input] given and a [--format] that is not in the catalog,
    [main] returns 1 after it has printed the error line and every name of
    the catalog, each on a line of its own, on the error stream; no file
    is written and no input path has been opened. *)
Theorem invalid_format_error E fuel vm input format w :
  vm_help vm = false → vm_input vm = Some input → vm_format vm = Some format →
  format ∉ getFormatNames E →
  vector_size (getFormatNames E) ≤ UINT_MAX →
  (length (getFormatNames E) < fuel)%nat →
  ∃ w', main E fuel vm w = Ok 1 w' ∧
        process_of (main E fuel vm w) = Some (Status 1, w') ∧
        cerr w' = cerr w +:+ "invalid input format: " +:+ endl +:+ endl +:+
                  "valid formats:" +:+ endl +:+
                  formats_listing (getFormatNames E) ∧
        files w' = files w ∧ read_log w' = read_log w ∧
        open_streams w' = open_streams w ∧ cout w' = cout w.
Proof.
  intros Hhelp Hinput Hformat Hin Hsize Hfuel.
  assert (∃ w', main E fuel vm w = Ok 1 w' ∧
            w' = with_cerr (with_cerr (with_cerr (with_cerr (with_cerr
                   (with_cerr w "invalid input format: ") endl) endl)
                   "valid formats:") endl) (formats_listing (getFormatNames E)))
    as (w' & Hmain & ->).
  { unfold main. rewrite Hhelp, Hinput, Hformat. unfold bind at 1.
    rewrite is_valid_format_elem_of by done.
    rewrite bool_decide_eq_false_2 by done. simpl.
    unfold bind, print_cerr. rewrite display_valid_formats_listing by done.
    by eexists. }
  rewrite Hmain. eexists. split; [done|]. split; [done|]. simpl.
  split; [|done]. by rewrite !string_app_assoc.
Qed.

Lemma invalid_format_error_witness :
  ∃ w', main four_env 4 (mk_vm false (Some "trees.nex") (Some "newick") None)
             empty_world = Ok 1 w' ∧
        cerr w' = "invalid input format: " +:+ endl +:+ endl +:+
                  "valid formats:" +:+ endl +:+
                  tab +:+ "nexus" +:+ endl +:+
                  tab +:+ "phyliptree" +:+ endl +:+
                  tab +:+ "relaxedphyliptree" +:+ endl ∧
        files w' = ∅ ∧ read_log w' = [].
Proof.
  destruct (invalid_format_error four_env 4
              (mk_vm false (Some "trees.nex") (Some "newick") None)
              "trees.nex" "newick" empty_world)
    as (w' & Hrun & _ & Hcerr & Hfiles & Hlog & _).
  - reflexivity.
  - reflexivity.
  - reflexivity.
  - intros Hin. apply (bool_decide_pack _) in Hin. vm_compute in Hin. exact Hin.
  - vm_compute. discriminate.
  - simpl. lia.
  - exists w'. split; [exact Hrun|]. split; [exact Hcerr|].
    split; [exact Hfiles|exact Hlog].
Defined.

(** ** Files of a batch *)

(** C8: when the trees at positions [i < j] resolve to the same output
    name, both calls of the writer go to the same file name; right after
    the call for [j] the file holds that tree's Newick string and a
    semicolon, and so it does at the end of the run when [j] is the last
    tree that goes to this file, under whatever path (the file can be
    opened and has room, and no call goes beyond the file size limit). *)
Theorem last_write_wins E fuel input format prefix trees i j tree_i tree_j w :
  tree_parser_parse E format (files w !! file_of E (c_str input)) = Parsed trees →
  vector_size trees ≤ UINT_MAX → (length trees < fuel)%nat →
  batch_within_limit E trees →
  (i < j)%nat → trees !! i = Some tree_i → trees !! j = Some tree_j →
  spec_output_name prefix i tree_i = spec_output_name prefix j tree_j →
  let filename := spec_output_name prefix j tree_j +:+ ".tre" in
  let file := file_of E (c_str filename) in
  can_open E (c_str filename) = true →
  fits E file (get_newick tree_j +:+ ";") = true →
  spec_calls prefix trees !! i = Some (get_newick tree_i, filename) ∧
  spec_calls prefix trees !! j = Some (get_newick tree_j, filename) ∧
  (∀ w0, ∃ w1,
     write_calls E (take (S j) (spec_calls prefix trees)) w0 = Ok tt w1 ∧
     files w1 !! file = Some (get_newick tree_j +:+ ";")) ∧
  ((∀ k tree', (j < k)%nat → trees !! k = Some tree' →
      file_of E (c_str (spec_output_name prefix k tree' +:+ ".tre")) ≠ file) →
   ∃ w', extract_trees E fuel input format prefix w = Ok tt w' ∧
         files w' !! file = Some (get_newick tree_j +:+ ";")).
Proof.
  intros Hparse Hsize Hfuel Hlimit Hij Hi Hj Hsame filename file Hopen Hfits.
  assert (spec_calls prefix trees !! j = Some (get_newick tree_j, filename))
    as Hcall by (by rewrite lookup_spec_calls, Hj).
  split.
  { rewrite lookup_spec_calls, Hi. simpl. unfold spec_call. by rewrite Hsame. }
  split; [done|]. split.
  - intros w0. eexists. split.
    { apply write_calls_world. intros call Hcall'%elem_of_take.
      destruct Hcall' as (k & Hk & _).
      apply (spec_calls_within_limit E prefix trees Hlimit).
      by apply list_elem_of_lookup; exists k. }
    unfold file.
    rewrite (files_after_calls E _ j (get_newick tree_j, filename)); simpl.
    + by rewrite stored_fits.
    + rewrite lookup_take_lt by lia. done.
    + done.
    + intros k call' Hk Hcall'. apply lookup_lt_Some in Hcall'.
      rewrite length_take in Hcall'. lia.
  - intros Hlast.
    rewrite (extract_trees_parsed _ _ _ _ _ trees);
      [|done|by destruct trees|done|done|done].
    eexists. split; [done|]. unfold file.
    rewrite (files_after_calls E _ j (get_newick tree_j, filename)); simpl.
    + by rewrite stored_fits.
    + done.
    + done.
    + intros k call' Hk Hcall'. rewrite lookup_spec_calls in Hcall'.
      destruct (trees !! k) as [tree'|] eqn:Hk'; [|done].
      injection Hcall' as <-. by apply (Hlast k).
Qed.

Lemma last_write_wins_witness :
  ∃ w', extract_trees (sample_env (Parsed [tree_A; tree_C; tree_A']) []) 4
          "trees.nex" "nexus" "tree" empty_world = Ok tt w' ∧
        files w' !! "A.tre" = Some "((a,b),c);".
Proof.
  destruct (last_write_wins (sample_env (Parsed [tree_A; tree_C; tree_A']) []) 4
              "trees.nex" "nexus" "tree" [tree_A; tree_C; tree_A'] 0 2
              tree_A tree_A' empty_world) as (_ & _ & _ & Hend).
  - reflexivity.
  - vm_compute. discriminate.
  - simpl. lia.
  - intros tree Htree. reflexivity.
  - lia.
  - reflexivity.
  - reflexivity.
  - reflexivity.
  - reflexivity.
  - reflexivity.
  - apply Hend. intros k tree' Hk Hlookup.
    destruct k as [|[|[|k]]]; [lia|lia|lia|discriminate].
Defined.

(** C9, as the code behaves: the input file [tree_1.tre] holds two
    unnamed trees, so the first run writes the second of them over the
    input; the second run then reads one tree only and writes it to
    [tree_0.tre], which the first run had left with the other tree. *)
Lemma rerun_on_overwritten_input :
  extract_trees rereading_env 4 "tree_1.tre" "phyliptree" "tree"
    (mk_world {["tree_1.tre" := "(a,b);(c,d);"]} "" "" [] []) =
    Ok tt (mk_world (<["tree_0.tre" := "(a,b);"]> {["tree_1.tre" := "(c,d);"]})
             "" "" ["tree_1.tre"] []) ∧
  extract_trees rereading_env 4 "tree_1.tre" "phyliptree" "tree"
    (mk_world (<["tree_0.tre" := "(a,b);"]> {["tree_1.tre" := "(c,d);"]})
       "" "" ["tree_1.tre"] []) =
    Ok tt (mk_world (<["tree_0.tre" := "(c,d);"]> {["tree_1.tre" := "(c,d);"]})
             "" "" ["tree_1.tre"; "tree_1.tre"] []).
Proof. split; reflexivity. Qed.

(** C9 amended: a second run of [extract_trees] with the same prefix, on an
    input file whose content is what it was for the first run, leaves
    every file as the first run left it (no write going beyond the file
    size limit). *)
Theorem extract_trees_idempotent E fuel input format prefix w w1 :
  let outcome := tree_parser_parse E format (files w !! file_of E (c_str input)) in
  vector_size (held_trees outcome) ≤ UINT_MAX →
  (length (held_trees outcome) < fuel)%nat →
  batch_within_limit E (held_trees outcome) →
  world_of (extract_trees E fuel input format prefix w) = Some w1 →
  files w1 !! file_of E (c_str input) = files w !! file_of E (c_str input) →
  ∃ w2, world_of (extract_trees E fuel input format prefix w1) = Some w2 ∧
        files w2 = files w1.
Proof.
  intros outcome Hsize Hfuel Hlimit Hfirst Hinput.
  destruct (extract_trees_files E fuel input format prefix w Hsize Hfuel Hlimit)
    as (w1' & Hw1 & Hfiles1).
  rewrite Hfirst in Hw1. injection Hw1 as <-.
  destruct (extract_trees_files E fuel input format prefix w1)
    as (w2 & Hw2 & Hfiles2); [by rewrite Hinput..|].
  exists w2. split; [done|].
  rewrite Hfiles2, Hinput, Hfiles1. apply foldl_file_after_twice.
Qed.

Lemma extract_trees_idempotent_witness :
  ∃ w2,
    world_of (extract_trees four_env 5 "trees.nex" "nexus" "tree"
      (mk_world (<["A.tre" := "(a,b);"]> (<["tree_1.tre" := "(c,d);"]>
                 (<["C.tre" := "(e,f);"]> {["tree_3.tre" := "(c,d);"]})))
                "" "" ["trees.nex"] [])) = Some w2 ∧
    files w2 = <["A.tre" := "(a,b);"]> (<["tree_1.tre" := "(c,d);"]>
                 (<["C.tre" := "(e,f);"]> {["tree_3.tre" := "(c,d);"]})).
Proof.
  apply (extract_trees_idempotent four_env 5 "trees.nex" "nexus" "tree"
           (mk_world {["tree_1.tre" := "left by an earlier run"]} "" "" [] [])).
  - vm_compute. discriminate.
  - simpl. lia.
  - intros tree Htree. reflexivity.
  - vm_compute. reflexivity.
  - vm_compute. reflexivity.
Defined.

(** ** The prefix *)

(** Two prefixes leave the same last write on every file that no unnamed
    tree goes to under either of them. *)
Lemma last_write_prefix E file prefix1 prefix2 trees k :
  (∀ i tree, trees !! i = Some tree → get_name tree = "" →
     file_of E (c_str (spec_call prefix1 (k + i) tree).2) ≠ file ∧
     file_of E (c_str (spec_call prefix2 (k + i) tree).2) ≠ file) →
  last_write E file (imap (λ i, spec_call prefix1 (k + i)) trees) =
  last_write E file (imap (λ i, spec_call prefix2 (k + i)) trees).
Proof.
  revert k. induction trees as [|tree trees IH]; intros k Hunnamed; [done|].
  rewrite !imap_cons. simpl.
  assert (∀ prefix, imap ((λ i, spec_call prefix (k + i)) ∘ S) trees =
                    imap (λ i, spec_call prefix (S k + i)) trees) as Hshift.
  { intros prefix. apply imap_ext. intros i t _. simpl.
    by rewrite Nat.add_succ_r. }
  rewrite !Hshift.
  rewrite IH.
  - destruct (last_write E file _); [done|].
    destruct (decide (get_name tree = "")) as [Hname|Hname].
    + destruct (Hunnamed 0%nat tree eq_refl Hname) as [H1 H2]. simpl in H1, H2.
      rewrite !bool_decide_eq_false_2 by done. by rewrite !andb_false_r.
    + unfold spec_output_name. by rewrite !decide_False by done.
  - intros i tree' Hi Hname.
    replace (S k + i)%nat with (k + S i)%nat by lia. by apply Hunnamed.
Qed.

(** C10: for a tree with a name, the iteration of the loop is, under any
    prefix, the one call of the writer on the tree's Newick string and its
    own name followed by [.tre]; the files two runs leave, from the same
    world and the same parsed trees, agree on every file that is not the
    file of an unnamed tree, under whatever path, under one of the
    prefixes, and there they hold what the run wrote (no write going
    beyond the file size limit). *)
Theorem named_trees_ignore_prefix E fuel input format prefix1 prefix2 trees w :
  tree_parser_parse E format (files w !! file_of E (c_str input)) = Parsed trees →
  trees ≠ [] →
  vector_size trees ≤ UINT_MAX → (length trees < fuel)%nat →
  batch_within_limit E trees →
  (∀ i tree, trees !! i = Some tree → get_name tree ≠ "" →
     ∀ prefix w0,
       extract_tree E prefix trees (Z.of_nat i) w0 =
       (run spit_newick E (get_newick tree) (get_name tree +:+ ".tre");
        ret Next) w0) ∧
  ∃ w1 w2,
    extract_trees E fuel input format prefix1 w = Ok tt w1 ∧
    extract_trees E fuel input format prefix2 w = Ok tt w2 ∧
    ∀ file,
      (∀ i tree, trees !! i = Some tree → get_name tree = "" →
         file_of E (c_str (spec_output_name prefix1 i tree +:+ ".tre")) ≠ file ∧
         file_of E (c_str (spec_output_name prefix2 i tree +:+ ".tre")) ≠ file) →
      files w1 !! file = files w2 !! file ∧
      (∀ j tree, trees !! j = Some tree → get_name tree ≠ "" →
         file_of E (c_str (get_name tree +:+ ".tre")) = file →
         can_open E (c_str (get_name tree +:+ ".tre")) = true →
         (∀ k tree', (j < k)%nat → trees !! k = Some tree' →
            get_name tree' ≠ "" →
            file_of E (c_str (get_name tree' +:+ ".tre")) ≠ file) →
         files w1 !! file = Some (stored E file (get_newick tree +:+ ";"))).
Proof.
  intros Hparse Hne Hsize Hfuel Hlimit. split.
  - intros i tree Hi Hname prefix w0.
    rewrite (extract_tree_call _ _ _ _ tree) by done.
    unfold spec_output_name. by rewrite decide_False.
  - rewrite !(extract_trees_parsed _ _ _ _ _ trees) by done.
    eexists _, _. split; [done|]. split; [done|].
    intros file Hunnamed. split.
    + rewrite !files_foldl_world_after, !lookup_foldl_file_after.
      unfold spec_calls.
      assert (last_write E file (imap (spec_call prefix1) trees) =
              last_write E file (imap (spec_call prefix2) trees)) as ->
        by exact (last_write_prefix E file prefix1 prefix2 trees 0 Hunnamed).
      done.
    + intros j tree Hj Hname Hfile Hopen Hlast.
      assert (spec_call prefix1 j tree = (get_newick tree, get_name tree +:+ ".tre"))
        as Hcall by (unfold spec_call, spec_output_name; by rewrite decide_False).
      pose proof (files_after_calls E (spec_calls prefix1 trees) j
                    (get_newick tree, get_name tree +:+ ".tre")
                    (with_read w (c_str input))) as Hfiles.
      simpl in Hfiles. rewrite Hfile in Hfiles. apply Hfiles.
      * by rewrite lookup_spec_calls, Hj, <- Hcall.
      * done.
      * intros k call' Hk Hcall'. rewrite lookup_spec_calls in Hcall'.
        destruct (trees !! k) as [tree'|] eqn:Hk'; [|done].
        injection Hcall' as <-. simpl.
        destruct (decide (get_name tree' = "")) as [Hname'|Hname'].
        -- by apply (Hunnamed k tree').
        -- unfold spec_output_name. rewrite decide_False by done.
           by apply (Hlast k).
Qed.

Lemma named_trees_ignore_prefix_witness :
  ∃ w1 w2,
    extract_trees four_env 5 "trees.nex" "nexus" "tree" empty_world = Ok tt w1 ∧
    extract_trees four_env 5 "trees.nex" "nexus" "t" empty_world = Ok tt w2 ∧
    files w1 !! "A.tre" = files w2 !! "A.tre" ∧
    files w1 !! "C.tre" = files w2 !! "C.tre".
Proof.
  destruct (named_trees_ignore_prefix four_env 5 "trees.nex" "nexus" "tree" "t"
              four_trees empty_world) as (_ & w1 & w2 & Hrun1 & Hrun2 & Hfiles).
  - reflexivity.
  - discriminate.
  - vm_compute. discriminate.
  - simpl. lia.
  - intros tree Htree. reflexivity.
  - exists w1, w2. split; [exact Hrun1|]. split; [exact Hrun2|].
    clear Hrun1 Hrun2.
    split; apply Hfiles; intros i tree Hi Hname;
      (destruct i as [|[|[|[|i]]]]; [| | | |discriminate Hi]);
      injection Hi as <-; try discriminate Hname;
      split; vm_compute; intros Heq; discriminate Heq.
Defined.

(** * Further properties *)

(** ** The writer on its own *)

(** X5: when the file cannot be opened, [spit_newick] returns all the same
    and the world is the one from before: a file already at that path
    keeps its contents, and nothing is printed. *)
Theorem spit_newick_open_failure E contents filename w :
  can_open E (c_str filename) = false →
  spit_newick E contents filename w = Ok tt w.
Proof.
  intros Hopen. unfold spit_newick, bind, open. simpl. by rewrite Hopen.
Qed.

Lemma spit_newick_open_failure_witness :
  spit_newick locked_env "(a,b)" "A.tre"
    (mk_world {["A.tre" := "kept"]} "" "" [] []) =
  Ok tt (mk_world {["A.tre" := "kept"]} "" "" [] []).
Proof.
  apply (spit_newick_open_failure locked_env "(a,b)" "A.tre"
           (mk_world {["A.tre" := "kept"]} "" "" [] [])).
  reflexivity.
Defined.

(** X6: [spit_newick] either returns or, when it has opened its file and a
    write goes beyond the file size limit, the process is killed by
    [SIGXFSZ].  In both cases it changes no file other than the one its
    path leads to, prints nothing and opens no input; when it returns, no
    stream is left open. *)
Theorem spit_newick_frame E contents filename w :
  ∃ w', (spit_newick E contents filename w = Ok tt w' ∧
         open_streams w' = open_streams w ∨
         spit_newick E contents filename w = Killed w' ∧
         can_open E (c_str filename) = true ∧
         within_limit E (contents +:+ ";") = false) ∧
        (∀ file, file ≠ file_of E (c_str filename) →
           files w' !! file = files w !! file) ∧
        cout w' = cout w ∧ cerr w' = cerr w ∧ read_log w' = read_log w.
Proof.
  destruct (can_open E (c_str filename)) eqn:Hopen; cycle 1.
  { exists w. split; [|done]. left. split; [|done].
    unfold spit_newick, bind, open. simpl. by rewrite Hopen. }
  destruct (within_limit E (contents +:+ ";")) eqn:Hlimit.
  { destruct (world_after_console E w (contents, filename))
      as (Hcout & Hcerr & Hlog & Hstreams).
    eexists. split; [left; split; [by apply spit_newick_world|done]|].
    split; [|done].
    intros file Hfile. rewrite files_world_after. unfold file_after. simpl.
    rewrite Hopen. by apply lookup_insert_ne. }
  remember (spit_newick E contents filename w) as r eqn:Hr.
  unfold spit_newick, bind, open in Hr. simpl in Hr. rewrite Hopen in Hr.
  simpl in Hr. unfold put at 1 in Hr. simpl in Hr.
  rewrite lookup_insert_eq in Hr. simpl in Hr.
  change ("" +:+ contents) with contents in Hr.
  destruct (within_limit E contents) eqn:Hfirst; cycle 1.
  { subst r. eexists. split; [right; by split|]. simpl. split; [|done].
    intros file Hfile. by rewrite !lookup_insert_ne. }
  unfold put in Hr. simpl in Hr. rewrite lookup_insert_eq in Hr. simpl in Hr.
  destruct (has_room E (file_of E (c_str filename)) contents) eqn:Hroom;
    simpl in Hr.
  - rewrite (stored_room _ _ contents), Hlimit in Hr by done. subst r.
    eexists. split; [right; by split|]. simpl. split; [|done].
    intros file Hfile. by rewrite !lookup_insert_ne.
  - unfold close in Hr. simpl in Hr. rewrite String.eqb_refl in Hr. subst r.
    eexists. split; [left; by split|]. simpl. split; [|done].
    intros file Hfile. by rewrite !lookup_insert_ne.
Qed.

Lemma c_str_app_nul s t : c_str (s +:+ String zero t) = c_str s.
Proof.
  induction s as [|a s IH]; [done|].
  change (String a s +:+ String zero t) with (String a (s +:+ String zero t)).
  simpl. by rewrite IH.
Qed.

(** X7: the file is opened under the name up to its first NUL: what
    follows a NUL in the file name makes no difference to the call. *)
Theorem spit_newick_nul_truncation E contents name rest w :
  spit_newick E contents (name +:+ String zero rest) w =
  spit_newick E contents (c_str name) w.
Proof.
  unfold spit_newick. rewrite c_str_app_nul.
  assert (c_str (c_str name) = c_str name) as ->; [|done].
  induction name as [|a name IH]; [done|]. simpl.
  destruct (Ascii.eqb a zero) eqn:Ha; [done|]. simpl. by rewrite Ha, IH.
Qed.

(** ** Paths and limits at work *)

(** Two names that lead to one file: the tree named [./A] is written over
    the file of the tree named [A]. *)
Lemma alias_overwrites :
  extract_trees (sample_env (Parsed [tree_A; tree_dot_A]) []) 4 "trees.nex"
    "nexus" "tree" empty_world =
  Ok tt (mk_world {["A.tre" := "(x,y);"]} "" "" ["trees.nex"] []).
Proof. reflexivity. Qed.

(** A write beyond the file size limit: the process is killed with the
    file filled up to the limit and its stream still open. *)
Lemma size_limit_kills :
  process_of (main limited_env 4 sample_vm empty_world) =
  Some (Sigxfsz, mk_world {["tree_0.tre" := "(c,"]} "" "" ["trees.nex"]
                          ["tree_0.tre"]).
Proof. reflexivity. Qed.

(** ** Every way a run can end *)

(** [extract_trees] after each way the parser can end. *)
Lemma extract_trees_cases E fuel input format prefix w :
  let outcome := tree_parser_parse E format (files w !! file_of E (c_str input)) in
  let w1 := with_read w (c_str input) in
  let w2 := with_cerr (with_cerr w1 "unknown exception occurred while parsing tree")
                      endl in
  vector_size (held_trees outcome) ≤ UINT_MAX →
  (length (held_trees outcome) < fuel)%nat →
  batch_within_limit E (held_trees outcome) →
  extract_trees E fuel input format prefix w =
  match outcome with
  | Parsed [] => Raise no_trees w1
  | Parsed held => Ok tt (foldl (world_after E) w1 (spec_calls prefix held))
  | ThrowsNxs message => Exit 1 (with_cerr (with_cerr w1 message) endl)
  | ThrowsStd message => Exit 1 (with_cerr (with_cerr w1 message) endl)
  | ThrowsOther [] => Raise no_trees w2
  | ThrowsOther held => Ok tt (foldl (world_after E) w2 (spec_calls prefix held))
  end.
Proof.
  intros outcome w1 w2 Hsize Hfuel Hlimit.
  destruct outcome as [held|message|message|held] eqn:Hparse;
    unfold outcome in Hparse; simpl in Hsize, Hfuel, Hlimit.
  - destruct held as [|tree held].
    + by apply extract_trees_empty.
    + by apply extract_trees_parsed.
  - enter_extract_trees. by rewrite Hparse.
  - enter_extract_trees. by rewrite Hparse.
  - by rewrite (extract_trees_unknown _ _ _ _ _ held).
Qed.

(** X4: with a valid request, a parse that ends in an [NxsException] or in
    another [std::exception] ends the process with status 1 after the
    message and a newline went to the error stream; the input was opened,
    no file is written and no tree is looked at. *)
Theorem parse_error_exits E fuel vm input format message w :
  vm_help vm = false → vm_input vm = Some input → vm_format vm = Some format →
  format ∈ getFormatNames E →
  vector_size (getFormatNames E) ≤ UINT_MAX →
  (length (getFormatNames E) < fuel)%nat →
  tree_parser_parse E format (files w !! file_of E (c_str input)) = ThrowsNxs message ∨
  tree_parser_parse E format (files w !! file_of E (c_str input)) = ThrowsStd message →
  ∃ w', main E fuel vm w = Exit 1 w' ∧
        process_of (main E fuel vm w) = Some (Status 1, w') ∧
        cerr w' = cerr w +:+ message +:+ endl ∧
        files w' = files w ∧ cout w' = cout w ∧
        read_log w' = c_str input :: read_log w ∧
        open_streams w' = open_streams w.
Proof.
  intros Hhelp Hinput Hformat Hin Hsize Hfuel Hparse.
  assert (main E fuel vm w =
          Exit 1 (with_cerr (with_cerr (with_read w (c_str input)) message) endl))
    as Hmain.
  { rewrite (main_valid E fuel vm input format) by done. unfold bind.
    destruct Hparse as [Hparse|Hparse]; enter_extract_trees; by rewrite Hparse. }
  rewrite Hmain. eexists. split; [done|]. split; [done|]. simpl.
  split; [|done]. apply string_app_assoc.
Qed.

Lemma parse_error_exits_witness :
  ∃ w', main (sample_env (ThrowsNxs "Expecting ';'") []) 4 sample_vm empty_world =
        Exit 1 w' ∧
        cerr w' = "Expecting ';'" +:+ endl ∧ files w' = ∅.
Proof.
  destruct (parse_error_exits (sample_env (ThrowsNxs "Expecting ';'") []) 4
              sample_vm "trees.nex" "nexus" "Expecting ';'" empty_world)
    as (w' & Hrun & _ & Hcerr & Hfiles & _).
  - reflexivity.
  - reflexivity.
  - reflexivity.
  - apply list_elem_of_here.
  - vm_compute. discriminate.
  - simpl. lia.
  - left. reflexivity.
  - exists w'. split; [exact Hrun|]. split; [exact Hcerr|exact Hfiles].
Defined.

(** X3: without [--help], a command line that lacks [--input] or
    [--format] makes [main] return 1 after it has printed which option is
    missing and the option list on the error stream; [--input] is looked
    for first, the format is not validated, no input is opened and no file
    is written. *)
Theorem missing_option_error E fuel vm w :
  vm_help vm = false →
  vm_input vm = None ∨ vm_format vm = None →
  let option := match vm_input vm with Some _ => "format" | None => "input" end in
  ∃ w', main E fuel vm w = Ok 1 w' ∧
        cerr w' = cerr w +:+ "required option, --" +:+ option +:+ ", missing"
                  +:+ endl +:+ desc E +:+ endl ∧
        files w' = files w ∧ cout w' = cout w ∧ read_log w' = read_log w ∧
        open_streams w' = open_streams w.
Proof.
  intros Hhelp Hmissing option. unfold main. rewrite Hhelp.
  destruct (vm_input vm) as [input|].
  - destruct Hmissing as [?|Hformat]; [done|]. rewrite Hformat.
    eexists. split; [done|]. simpl. split; [|done].
    by rewrite !string_app_assoc.
  - eexists. split; [done|]. simpl. split; [|done].
    by rewrite !string_app_assoc.
Qed.

Lemma missing_option_error_witness :
  ∃ w', main four_env 0 (mk_vm false None (Some "no such format") None)
             empty_world = Ok 1 w' ∧
        cerr w' = "required option, --input, missing" +:+ endl +:+
                  "Allowed options" +:+ endl ∧
        files w' = ∅ ∧ read_log w' = [].
Proof.
  destruct (missing_option_error four_env 0
              (mk_vm false None (Some "no such format") None) empty_world)
    as (w' & Hrun & Hcerr & Hfiles & _ & Hlog & _).
  - reflexivity.
  - left. reflexivity.
  - exists w'. split; [exact Hrun|]. split; [exact Hcerr|].
    split; [exact Hfiles|exact Hlog].
Defined.

Lemma only_adds_refl w : only_adds w w.
Proof.
  split; [done|]. split; [|split; [|done]]; exists ""; by rewrite string_app_empty_r.
Qed.

Lemma only_adds_trans w1 w2 w3 :
  only_adds w1 w2 → only_adds w2 w3 → only_adds w1 w3.
Proof.
  intros (Hf1 & [o1 Ho1] & [e1 He1] & Hs1) (Hf2 & [o2 Ho2] & [e2 He2] & Hs2).
  split; [by auto|]. split; [|split].
  - exists (o1 +:+ o2). by rewrite Ho2, Ho1, string_app_assoc.
  - exists (e1 +:+ e2). by rewrite He2, He1, string_app_assoc.
  - by rewrite Hs2.
Qed.

Lemma only_adds_with_cerr w text : only_adds w (with_cerr w text).
Proof.
  split; [done|]. split; [|split; [|done]].
  - exists "". simpl. by rewrite string_app_empty_r.
  - by exists text.
Qed.

Lemma only_adds_with_cout w text : only_adds w (with_cout w text).
Proof.
  split; [done|]. split; [|split; [|done]].
  - by exists text.
  - exists "". simpl. by rewrite string_app_empty_r.
Qed.

Lemma only_adds_with_read w path : only_adds w (with_read w path).
Proof.
  split; [done|]. split; [|split; [|done]]; exists ""; simpl;
    by rewrite string_app_empty_r.
Qed.

Lemma only_adds_calls E calls w : only_adds w (foldl (world_after E) w calls).
Proof.
  destruct (foldl_world_after_console E calls w) as (Hcout & Hcerr & _ & Hopen).
  split; [|split; [|split; [|done]]].
  - intros path Hpath. rewrite files_foldl_world_after, lookup_foldl_file_after.
    by destruct (last_write E path calls).
  - exists "". by rewrite Hcout, string_app_empty_r.
  - exists "". by rewrite Hcerr, string_app_empty_r.
Qed.

(** [main] with a format that is not in the catalog. *)
Lemma main_invalid E fuel vm input format w :
  vm_help vm = false → vm_input vm = Some input → vm_format vm = Some format →
  format ∉ getFormatNames E →
  vector_size (getFormatNames E) ≤ UINT_MAX →
  (length (getFormatNames E) < fuel)%nat →
  main E fuel vm w =
  Ok 1 (with_cerr (with_cerr (with_cerr (with_cerr (with_cerr
          (with_cerr w "invalid input format: ") endl) endl)
          "valid formats:") endl) (formats_listing (getFormatNames E))).
Proof.
  intros Hhelp Hinput Hformat Hin Hsize Hfuel.
  unfold main. rewrite Hhelp, Hinput, Hformat. unfold bind at 1.
  rewrite is_valid_format_elem_of by done.
  rewrite bool_decide_eq_false_2 by done. simpl.
  unfold bind, print_cerr. by rewrite display_valid_formats_listing.
Qed.

(** X1: as long as no write goes beyond the file size limit, [main] ends
    with status 0 in two cases only: [--help] was given, or [--input] and
    a format of the catalog were given and the parser, having returned or
    having thrown something the first two handlers do not catch, holds at
    least one tree. *)
Theorem main_status_zero_iff E fuel vm w :
  vector_size (getFormatNames E) ≤ UINT_MAX →
  (length (getFormatNames E) < fuel)%nat →
  (∀ input format, vm_input vm = Some input → vm_format vm = Some format →
     let held := held_trees (tree_parser_parse E format
                               (files w !! file_of E (c_str input))) in
     vector_size held ≤ UINT_MAX ∧ (length held < fuel)%nat ∧
     batch_within_limit E held) →
  fst <$> process_of (main E fuel vm w) = Some (Status 0) ↔
  vm_help vm = true ∨
  ∃ input format held,
    vm_input vm = Some input ∧ vm_format vm = Some format ∧
    format ∈ getFormatNames E ∧ held ≠ [] ∧
    (tree_parser_parse E format (files w !! file_of E (c_str input)) = Parsed held ∨
     tree_parser_parse E format (files w !! file_of E (c_str input)) = ThrowsOther held).
Proof.
  intros Hsize Hfuel Hheld.
  destruct (vm_help vm) eqn:Hhelp.
  { unfold main. rewrite Hhelp. split; [by left|done]. }
  destruct (vm_input vm) as [input|] eqn:Hinput; cycle 1.
  { unfold main. rewrite Hhelp, Hinput. simpl.
    split; [done|]. by intros [?|(? & ? & ? & ? & _)]. }
  destruct (vm_format vm) as [format|] eqn:Hformat; cycle 1.
  { unfold main. rewrite Hhelp, Hinput, Hformat. simpl.
    split; [done|]. by intros [?|(? & ? & ? & _ & ? & _)]. }
  destruct (decide (format ∈ getFormatNames E)) as [Hin|Hin]; cycle 1.
  { rewrite (main_invalid E fuel vm input format) by done. simpl.
    split; [done|]. intros [?|(? & f & ? & _ & [= <-] & ? & _)]; done. }
  destruct (Hheld input format eq_refl eq_refl) as (Hsize' & Hfuel' & Hlimit).
  rewrite (main_valid E fuel vm input format) by done. unfold bind.
  rewrite extract_trees_cases by done.
  destruct (tree_parser_parse E format (files w !! file_of E (c_str input)))
    as [[|tree held]|message|message|[|tree held]] eqn:Hparse; simpl.
  all: split;
    [ try done; intros _; right; eexists input, format, (tree :: held);
      by eauto 10
    | try done;
      intros [?|(i & f & h & [= <-] & [= <-] & _ & Hne & [Hp|Hp])]; try done;
      rewrite Hparse in Hp; by simplify_eq ].
Qed.

Lemma main_status_zero_iff_witness :
  fst <$> process_of (main four_env 5 sample_vm empty_world) = Some (Status 0).
Proof.
  apply (main_status_zero_iff four_env 5 sample_vm empty_world).
  - vm_compute. discriminate.
  - simpl. lia.
  - intros input format [= <-] [= <-].
    split; [vm_compute; discriminate|]. split; [simpl; lia|].
    intros tree Htree. reflexivity.
  - right. exists "trees.nex", "nexus", four_trees.
    split; [reflexivity|]. split; [reflexivity|].
    split; [apply list_elem_of_here|]. split; [discriminate|].
    left. reflexivity.
Defined.

(** X2: for every command line that Boost has parsed and whatever the
    parser does, as long as no write goes beyond the file size limit,
    [main] ends, with status 0 or 1 or aborted by the [no_trees]
    exception; on the way no file is removed, the console streams only
    grow and no output stream is left open. *)
Theorem main_always_ends E fuel vm w :
  vector_size (getFormatNames E) ≤ UINT_MAX →
  (length (getFormatNames E) < fuel)%nat →
  (∀ input format, vm_input vm = Some input → vm_format vm = Some format →
     let held := held_trees (tree_parser_parse E format
                               (files w !! file_of E (c_str input))) in
     vector_size held ≤ UINT_MAX ∧ (length held < fuel)%nat ∧
     batch_within_limit E held) →
  ∃ ending w',
    process_of (main E fuel vm w) = Some (ending, w') ∧
    (ending = Status 0 ∨ ending = Status 1 ∨
     ending = Aborted "the file was parsed successfully, but no trees were found") ∧
    (∀ path, is_Some (files w !! path) → is_Some (files w' !! path)) ∧
    (∃ text, cout w' = cout w +:+ text) ∧
    (∃ text, cerr w' = cerr w +:+ text) ∧
    open_streams w' = open_streams w.
Proof.
  intros Hsize Hfuel Hheld.
  cut (∃ ending w', process_of (main E fuel vm w) = Some (ending, w') ∧
         (ending = Status 0 ∨ ending = Status 1 ∨ ending = Aborted (what no_trees)) ∧
         only_adds w w').
  { intros (ending & w' & Hrun & Hending & Hadds). by exists ending, w'. }
  destruct (vm_help vm) eqn:Hhelp.
  { unfold main. rewrite Hhelp. eexists _, _. split; [done|]. split; [by left|].
    eapply only_adds_trans; apply only_adds_with_cout. }
  destruct (vm_input vm) as [input|] eqn:Hinput; cycle 1.
  { unfold main. rewrite Hhelp, Hinput. eexists _, _. split; [done|].
    split; [by right; left|].
    repeat (eapply only_adds_trans; [|apply only_adds_with_cerr]).
    apply only_adds_refl. }
  destruct (vm_format vm) as [format|] eqn:Hformat; cycle 1.
  { unfold main. rewrite Hhelp, Hinput, Hformat. eexists _, _. split; [done|].
    split; [by right; left|].
    repeat (eapply only_adds_trans; [|apply only_adds_with_cerr]).
    apply only_adds_refl. }
  destruct (decide (format ∈ getFormatNames E)) as [Hin|Hin]; cycle 1.
  { rewrite (main_invalid E fuel vm input format) by done.
    eexists _, _. split; [done|]. split; [by right; left|].
    repeat (eapply only_adds_trans; [|apply only_adds_with_cerr]).
    apply only_adds_refl. }
  destruct (Hheld input format eq_refl eq_refl) as (Hsize' & Hfuel' & Hlimit).
  rewrite (main_valid E fuel vm input format) by done. unfold bind.
  rewrite extract_trees_cases by done.
  destruct (tree_parser_parse E format (files w !! file_of E (c_str input)))
    as [[|tree held]|message|message|[|tree held]]; simpl.
  all: eexists _, _; split; [done|]; split; [by eauto|].
  all: repeat first
    [ apply only_adds_with_read
    | eapply only_adds_trans; [|apply only_adds_with_cerr]
    | eapply only_adds_trans; [|apply only_adds_calls]
    | eapply only_adds_trans; [|apply (only_adds_calls _ [_])] ].
Qed.

Lemma main_always_ends_witness :
  ∃ ending w',
    process_of (main locked_env 4 sample_vm
                  (mk_world {["old.tre" := "(x,y);"]} "" "" [] [])) =
      Some (ending, w') ∧
    is_Some (files w' !! "old.tre") ∧ open_streams w' = [].
Proof.
  destruct (main_always_ends locked_env 4 sample_vm
              (mk_world {["old.tre" := "(x,y);"]} "" "" [] []))
    as (ending & w' & Hrun & _ & Hkept & _ & _ & Hopen).
  - vm_compute. discriminate.
  - simpl. lia.
  - intros input format [= <-] [= <-].
    split; [vm_compute; discriminate|]. split; [simpl; lia|].
    intros tree Htree. reflexivity.
  - exists ending, w'. split; [exact Hrun|]. split; [|exact Hopen].
    apply Hkept. exists "(x,y);". reflexivity.
Defined.

(** ** Which files a batch touches *)

Lemma last_write_is_Some E file calls :
  is_Some (last_write E file calls) ↔
  ∃ call, call ∈ calls ∧ file_of E (c_str call.2) = file ∧
          can_open E (c_str call.2) = true.
Proof.
  induction calls as [|call calls IH]; simpl.
  - split; [by intros [? ?]|]. intros (call & Hin & _). by apply elem_of_nil in Hin.
  - destruct (last_write E file calls) as [data|] eqn:Hlast.
    + split; [intros _|by eauto].
      destruct (proj1 IH) as (call' & Hin & Hcall'); [by eauto|].
      exists call'. split; [by right|done].
    + split.
      * case_bool_decide as Hfile; [|by rewrite andb_false_r; intros [? ?]].
        destruct (can_open E (c_str call.2)) eqn:Hopen; [|by intros [? ?]].
        intros _. exists call. split; [by left|done].
      * intros (call' & [->|Hin]%elem_of_cons & Hfile & Hopen).
        -- rewrite Hopen, bool_decide_eq_true_2 by done. by eauto.
        -- destruct (proj2 IH) as [? ?]; [by eauto|done].
Qed.

Lemma elem_of_spec_calls prefix trees call :
  call ∈ spec_calls prefix trees ↔
  ∃ i tree, trees !! i = Some tree ∧ call = spec_call prefix i tree.
Proof.
  rewrite list_elem_of_lookup. split.
  - intros [i Hi]. rewrite lookup_spec_calls in Hi.
    destruct (trees !! i) as [tree|] eqn:Htree; [|done].
    injection Hi as <-. by exists i, tree.
  - intros (i & tree & Hi & ->). exists i. by rewrite lookup_spec_calls, Hi.
Qed.

(** X9: after a run on a parsed batch, with no write beyond the file size
    limit, a file exists exactly when it existed before or some tree's
    output path leads to it and could be opened: the run removes nothing
    and creates nothing else. *)
Theorem extract_trees_creates_only_outputs E fuel input format prefix trees w :
  tree_parser_parse E format (files w !! file_of E (c_str input)) = Parsed trees →
  vector_size trees ≤ UINT_MAX → (length trees < fuel)%nat →
  batch_within_limit E trees →
  ∃ w', world_of (extract_trees E fuel input format prefix w) = Some w' ∧
    ∀ file,
      is_Some (files w' !! file) ↔
      is_Some (files w !! file) ∨
      ∃ i tree, trees !! i = Some tree ∧
                file_of E (c_str (spec_output_name prefix i tree +:+ ".tre")) = file ∧
                can_open E (c_str (spec_output_name prefix i tree +:+ ".tre")) = true.
Proof.
  intros Hparse Hsize Hfuel Hlimit.
  destruct (extract_trees_files E fuel input format prefix w) as (w' & Hrun & Hfiles);
    [by rewrite Hparse..|].
  exists w'. split; [done|]. intros file.
  rewrite Hfiles, lookup_foldl_file_after. unfold run_calls. rewrite Hparse. simpl.
  pose proof (last_write_is_Some E file (spec_calls prefix trees)) as Hlast.
  setoid_rewrite elem_of_spec_calls in Hlast.
  destruct (last_write E file (spec_calls prefix trees)) as [data|].
  - split; [intros _; right|by eauto].
    destruct (proj1 Hlast) as (call & (i & tree & Hi & ->) & Hfile & Hopen);
      [by eauto|]. by exists i, tree.
  - split; [by left|]. intros [?|(i & tree & Hi & Hfile & Hopen)]; [done|].
    destruct (proj2 Hlast) as [? ?]; [|done].
    exists (spec_call prefix i tree). split; [by exists i, tree|done].
Qed.

Lemma extract_trees_creates_only_outputs_witness :
  ∃ w', world_of (extract_trees locked_env 4 "trees.nex" "nexus" "tree"
                    (mk_world {["old.tre" := "(x,y);"]} "" "" [] [])) = Some w' ∧
        is_Some (files w' !! "old.tre") ∧
        is_Some (files w' !! "C.tre") ∧
        ¬ is_Some (files w' !! "A.tre").
Proof.
  destruct (extract_trees_creates_only_outputs locked_env 4 "trees.nex" "nexus"
              "tree" [tree_A; tree_C]
              (mk_world {["old.tre" := "(x,y);"]} "" "" [] []))
    as (w' & Hrun & Hfiles).
  - reflexivity.
  - vm_compute. discriminate.
  - simpl. lia.
  - intros tree Htree. reflexivity.
  - exists w'. split; [exact Hrun|]. split; [|split].
    + apply Hfiles. left. exists "(x,y);". reflexivity.
    + apply Hfiles. right. exists 1%nat, tree_C.
      split; [reflexivity|]. split; reflexivity.
    + intros [[data Hdata]|(i & tree & Hi & Hfile & Hopen)]%Hfiles.
      * discriminate Hdata.
      * destruct i as [|[|i]]; [| |discriminate Hi]; injection Hi as <-.
        -- vm_compute in Hopen. discriminate Hopen.
        -- vm_compute in Hfile. discriminate Hfile.
Defined.

(** X10: a run on a parsed batch, with no write beyond the file size
    limit, leaves every file that no tree's output path leads to as it
    was, prints nothing, opens the input once and leaves no output stream
    open. *)
Theorem extract_trees_frame E fuel input format prefix trees w :
  tree_parser_parse E format (files w !! file_of E (c_str input)) = Parsed trees →
  vector_size trees ≤ UINT_MAX → (length trees < fuel)%nat →
  batch_within_limit E trees →
  ∃ w', world_of (extract_trees E fuel input format prefix w) = Some w' ∧
    (∀ file,
       (∀ i tree, trees !! i = Some tree →
          file_of E (c_str (spec_output_name prefix i tree +:+ ".tre")) ≠ file) →
       files w' !! file = files w !! file) ∧
    cout w' = cout w ∧ cerr w' = cerr w ∧
    read_log w' = c_str input :: read_log w ∧
    open_streams w' = open_streams w.
Proof.
  intros Hparse Hsize Hfuel Hlimit.
  pose proof (extract_trees_cases E fuel input format prefix w) as Hrun.
  simpl in Hrun. rewrite Hparse in Hrun. rewrite Hrun by done. clear Hrun.
  destruct (foldl_world_after_console E (spec_calls prefix trees)
              (with_read w (c_str input))) as (Hcout & Hcerr & Hlog & Hopen).
  assert (∀ file,
            (∀ i tree, trees !! i = Some tree →
               file_of E (c_str (spec_output_name prefix i tree +:+ ".tre")) ≠ file) →
            files (foldl (world_after E) (with_read w (c_str input))
                     (spec_calls prefix trees)) !! file = files w !! file)
    as Hfiles.
  { intros file Hfile. rewrite files_foldl_world_after, lookup_foldl_file_after.
    destruct (last_write E file (spec_calls prefix trees)) as [data|] eqn:Hlast;
      [|done].
    destruct (proj1 (last_write_is_Some E file (spec_calls prefix trees)))
      as (call & (i & tree & Hi & ->)%elem_of_spec_calls & Hcall & _);
      [by rewrite Hlast|].
    by destruct (Hfile i tree Hi). }
  destruct trees as [|tree trees].
  - eexists. split; [done|]. split; [|done]. intros file _. done.
  - eexists. split; [done|]. by repeat split.
Qed.

Lemma extract_trees_frame_witness :
  ∃ w', world_of (extract_trees four_env 5 "trees.nex" "nexus" "tree"
                    (mk_world {["trees.nex" := "#NEXUS"]} "" "" [] [])) = Some w' ∧
        files w' !! "trees.nex" = Some "#NEXUS" ∧
        read_log w' = ["trees.nex"].
Proof.
  destruct (extract_trees_frame four_env 5 "trees.nex" "nexus" "tree" four_trees
              (mk_world {["trees.nex" := "#NEXUS"]} "" "" [] []))
    as (w' & Hrun & Hfiles & _ & _ & Hlog & _).
  - reflexivity.
  - vm_compute. discriminate.
  - simpl. lia.
  - intros tree Htree. reflexivity.
  - exists w'. split; [exact Hrun|]. split; [|exact Hlog].
    rewrite Hfiles; [reflexivity|].
    intros i tree Hi.
    destruct i as [|[|[|[|i]]]]; [| | | |discriminate Hi];
      injection Hi as <-; vm_compute; intros Heq; discriminate Heq.
Defined.

(** ** Synthesized names *)

Lemma c_str_app s t : c_str s = s → c_str (s +:+ t) = s +:+ c_str t.
Proof.
  induction s as [|a s IH]; [done|].
  change (String a s +:+ t) with (String a (s +:+ t)). simpl.
  destruct (Ascii.eqb a zero); [done|].
  intros [= Hs]. by rewrite IH.
Qed.

Lemma pretty_N_char_not_nul x : Ascii.eqb (pretty_N_char x) zero = false.
Proof. unfold pretty_N_char. by repeat case_match. Qed.

Lemma c_str_pretty_N_go x s :
  c_str s = s → c_str (pretty_N_go x s) = pretty_N_go x s.
Proof.
  revert s. induction (N.lt_wf_0 x) as [x _ IH]; intros s Hs.
  destruct (decide (x = 0)%N) as [->|Hx]; [by rewrite pretty_N_go_0|].
  rewrite pretty_N_go_step by lia. apply IH.
  - apply N.div_lt; lia.
  - simpl. by rewrite pretty_N_char_not_nul, Hs.
Qed.

(** The digits of a number hold no NUL. *)
Lemma c_str_pretty (i : nat) : c_str (pretty i) = pretty i.
Proof.
  unfold pretty, pretty_nat, pretty, pretty_N.
  case_decide; [done|]. by apply c_str_pretty_N_go.
Qed.

Lemma string_app_inj_r (s1 s2 t : string) : s1 +:+ t = s2 +:+ t → s1 = s2.
Proof.
  revert s2. induction s1 as [|a s1 IH]; intros [|b s2] Heq; [done| | |].
  - apply (f_equal String.length) in Heq.
    change (String b s2 +:+ t) with (String b (s2 +:+ t)) in Heq.
    change ("" +:+ t) with t in Heq. simpl in Heq.
    rewrite string_length_app in Heq. lia.
  - apply (f_equal String.length) in Heq.
    change (String a s1 +:+ t) with (String a (s1 +:+ t)) in Heq.
    change ("" +:+ t) with t in Heq. simpl in Heq.
    rewrite string_length_app in Heq. lia.
  - change (String a (s1 +:+ t) = String b (s2 +:+ t)) in Heq.
    injection Heq as -> Heq. f_equal. by apply IH.
Qed.

(** With a prefix that holds no NUL, the file of an unnamed tree is opened
    under its whole name, and the position can be read back from it. *)
Lemma synthesized_path prefix (i : nat) :
  c_str prefix = prefix →
  c_str ((prefix +:+ "_" +:+ pretty i) +:+ ".tre") =
  (prefix +:+ "_" +:+ pretty i) +:+ ".tre".
Proof.
  intros Hprefix.
  rewrite !string_app_assoc, (c_str_app prefix) by done. f_equal.
  rewrite (c_str_app "_") by done. f_equal.
  by rewrite (c_str_app (pretty i)) by apply c_str_pretty.
Qed.

Lemma synthesized_path_inj prefix (i k : nat) :
  (prefix +:+ "_" +:+ pretty i) +:+ ".tre" =
  (prefix +:+ "_" +:+ pretty k) +:+ ".tre" → i = k.
Proof.
  intros Heq%string_app_inj_r.
  apply (inj (String.app prefix)), (inj (String.app "_")) in Heq.
  by apply (inj pretty) in Heq.
Qed.

(** X8: unnamed trees never overwrite one another.  With a prefix that
    holds no NUL, the file that [prefix_i.tre] leads to holds the Newick
    string of the unnamed tree at position [i] and a semicolon at the end
    of the run, provided that differently spelled names of unnamed trees
    lead to different files, no named tree after it goes to that file,
    the file can be opened and has room, and no write goes beyond the
    file size limit. *)
Theorem unnamed_trees_never_collide E fuel input format prefix trees i tree w :
  tree_parser_parse E format (files w !! file_of E (c_str input)) = Parsed trees →
  vector_size trees ≤ UINT_MAX → (length trees < fuel)%nat →
  batch_within_limit E trees →
  c_str prefix = prefix →
  trees !! i = Some tree → get_name tree = "" →
  let filename (k : nat) := (prefix +:+ "_" +:+ pretty k) +:+ ".tre" in
  (∀ k, file_of E (filename k) = file_of E (filename i) →
        filename k = filename i) →
  can_open E (filename i) = true →
  fits E (file_of E (filename i)) (get_newick tree +:+ ";") = true →
  (∀ k tree', (i < k)%nat → trees !! k = Some tree' → get_name tree' ≠ "" →
     file_of E (c_str (get_name tree' +:+ ".tre")) ≠ file_of E (filename i)) →
  ∃ w', extract_trees E fuel input format prefix w = Ok tt w' ∧
        files w' !! file_of E (filename i) = Some (get_newick tree +:+ ";").
Proof.
  intros Hparse Hsize Hfuel Hlimit Hprefix Hi Hname filename Hfiles Hopen Hfits
         Hnamed.
  assert (∀ k, c_str (filename k) = filename k) as Hpath
    by (intros k; by apply synthesized_path).
  assert (spec_call prefix i tree = (get_newick tree, filename i)) as Hcall.
  { unfold spec_call, spec_output_name. by rewrite decide_True. }
  rewrite (extract_trees_parsed _ _ _ _ _ trees);
    [|done|by destruct trees|done|done|done].
  eexists. split; [done|].
  pose proof (files_after_calls E (spec_calls prefix trees) i
                (get_newick tree, filename i) (with_read w (c_str input))) as Hfile.
  simpl in Hfile. rewrite Hpath in Hfile. rewrite Hfile.
  - by rewrite stored_fits.
  - by rewrite lookup_spec_calls, Hi, <- Hcall.
  - done.
  - intros k call' Hk Hcall'. rewrite lookup_spec_calls in Hcall'.
    destruct (trees !! k) as [tree'|] eqn:Hk'; [|done].
    injection Hcall' as <-. unfold spec_call, spec_output_name. simpl.
    case_decide as Hname'.
    + fold (filename k). rewrite Hpath.
      intros Heq%Hfiles%synthesized_path_inj. lia.
    + by apply (Hnamed k).
Qed.

Lemma unnamed_trees_never_collide_witness :
  ∃ w', extract_trees (sample_env (Parsed unnamed_batch) []) 4 "trees.nex"
          "nexus" "tree" empty_world = Ok tt w' ∧
        files w' !! "tree_1.tre" = Some "(c,d);".
Proof.
  apply (unnamed_trees_never_collide (sample_env (Parsed unnamed_batch) []) 4
           "trees.nex" "nexus" "tree" unnamed_batch 1
           (mk_tree_info "" "(c,d)") empty_world).
  - reflexivity.
  - vm_compute. discriminate.
  - simpl. lia.
  - intros tree Htree. reflexivity.
  - reflexivity.
  - reflexivity.
  - reflexivity.
  - intros k Heq. exact Heq.
  - reflexivity.
  - reflexivity.
  - intros k tree' Hk Hlookup Hname.
    destruct k as [|[|[|k]]]; [lia|lia| |discriminate Hlookup].
    injection Hlookup as <-. destruct Hname. reflexivity.
Defined.

(** ** Batches an [unsigned] cannot count *)

(** A loop whose bound exceeds [UINT_MAX] and whose body always goes on uses
    up any fuel: the counter wraps to 0 before it reaches the bound. *)
Lemma for_unsigned_oversize {R} (body : Z → M (flow R)) size fuel i w :
  UINT_MAX < size →
  (∀ j w0, 0 ≤ j ≤ UINT_MAX → ∃ w1, body j w0 = Ok Next w1) →
  0 ≤ i ≤ UINT_MAX →
  for_unsigned fuel size body i w = Fuel.
Proof.
  intros Hsize Hbody. revert i w.
  induction fuel as [|fuel IH]; intros i w Hi; [done|].
  simpl. destruct (Z.ltb_spec i size) as [_|Hge]; [|lia].
  unfold bind. destruct (Hbody i w Hi) as [w1 ->].
  apply IH. unfold incr.
  pose proof (Z.mod_pos_bound (i + 1) (UINT_MAX + 1)) as Hmod.
  unfold UINT_MAX in *. lia.
Qed.

(** X11: on a parsed batch of more than [UINT_MAX] trees the loop of
    [extract_trees] never reaches its end: its [unsigned] counter wraps to
    0 and the files are written over and over, so no amount of fuel lets
    [extract_trees] return (no write going beyond the file size limit,
    which would kill the process instead). *)
Theorem oversize_batch_never_ends E fuel input format prefix trees w :
  tree_parser_parse E format (files w !! file_of E (c_str input)) = Parsed trees →
  UINT_MAX < vector_size trees →
  batch_within_limit E trees →
  extract_trees E fuel input format prefix w = Fuel.
Proof.
  intros Hparse Hsize Hlimit. enter_extract_trees. rewrite Hparse. simpl.
  destruct (Z.eqb_spec (vector_size trees) 0) as [H0|_];
    [unfold UINT_MAX in Hsize; lia|].
  unfold bind. rewrite for_unsigned_oversize; [done|done| |unfold UINT_MAX; lia].
  intros j w0 Hj.
  destruct (trees !! Z.to_nat j) as [tree|] eqn:Htree.
  - rewrite <- (Z2Nat.id j) by lia.
    rewrite (extract_tree_at E prefix trees (Z.to_nat j) tree); [by eexists|done|].
    apply Hlimit. apply list_elem_of_lookup. by exists (Z.to_nat j).
  - apply lookup_ge_None in Htree. unfold vector_size in Hsize. lia.
Qed.

Lemma oversize_batch_never_ends_witness :
  extract_trees (sample_env (Parsed oversize_batch) []) 1000 "trees.nex" "nexus"
    "tree" empty_world = Fuel.
Proof.
  apply (oversize_batch_never_ends (sample_env (Parsed oversize_batch) []) 1000
           "trees.nex" "nexus" "tree" oversize_batch empty_world).
  - reflexivity.
  - unfold vector_size, oversize_batch. rewrite length_replicate. lia.
  - intros tree Htree. reflexivity.
Defined.
